(** * Synchronisation contract of the cartography connectors

    A shallow embedding of
    - [cartography/intel/gcp/storage.py] (fetch, transform, load, cleanup and
      sync of GCP storage buckets), and
    - [cartography/intel/okta/__init__.py] (the Okta ingestion orchestrator),
    together with the properties of the fetch -> transform -> load -> cleanup
    convention that the specification states about them.

    Layout: Part I holds the data model and the embedded functions, Part II
    the lemmas and theorems. *)

From Stdlib Require Import Ascii String.
From stdpp Require Import gmap strings list fin_maps.
Set Warnings "-register-all".

(* ===================================================================== *)
(** * Part I. Definitions                                                  *)
(* ===================================================================== *)

(** ** Python values

    Raw API responses are JSON documents decoded into Python objects.  A
    decoded JSON object is kept as an association list, because
    [dict.items()] exposes the insertion order. *)

Inductive pyval : Type :=
  | VNone
  | VBool (b : bool)
  | VInt (z : Z)
  | VStr (s : string)
  | VList (l : list pyval)
  | VTuple (l : list pyval)
  | VDict (d : list (string * pyval)).

Fixpoint pyval_eq_dec (x y : pyval) {struct x} : {x = y} + {x ≠ y}.
Proof.
  refine (
  let fix seq_dec (l1 l2 : list pyval) {struct l1} : {l1 = l2} + {l1 ≠ l2} :=
    match l1, l2 with
    | [], [] => left eq_refl
    | a :: l1', b :: l2' =>
        match pyval_eq_dec a b with
        | left e1 =>
            match seq_dec l1' l2' with left e2 => left _ | right n => right _ end
        | right n => right _
        end
    | _, _ => right _
    end in
  let fix dict_dec (l1 l2 : list (string * pyval)) {struct l1}
      : {l1 = l2} + {l1 ≠ l2} :=
    match l1, l2 with
    | [], [] => left eq_refl
    | (k1, a) :: l1', (k2, b) :: l2' =>
        match decide (k1 = k2) with
        | left e0 =>
            match pyval_eq_dec a b with
            | left e1 =>
                match dict_dec l1' l2' with
                | left e2 => left _
                | right n => right _
                end
            | right n => right _
            end
        | right n => right _
        end
    | _, _ => right _
    end in
  match x, y with
  | VNone, VNone => left eq_refl
  | VBool a, VBool b =>
      match decide (a = b) with left e => left _ | right n => right _ end
  | VInt a, VInt b =>
      match decide (a = b) with left e => left _ | right n => right _ end
  | VStr a, VStr b =>
      match decide (a = b) with left e => left _ | right n => right _ end
  | VList a, VList b =>
      match seq_dec a b with left e => left _ | right n => right _ end
  | VTuple a, VTuple b =>
      match seq_dec a b with left e => left _ | right n => right _ end
  | VDict a, VDict b =>
      match dict_dec a b with left e => left _ | right n => right _ end
  | _, _ => right _
  end); try congruence.
  Unshelve. all: congruence.
Defined.

#[global] Instance pyval_eq_decision : EqDecision pyval := pyval_eq_dec.

(** ** Exceptions

    [HttpError] is googleapiclient's error; its payload is opaque to the
    connectors, which only hand it to [compute._get_error_reason]. *)

Inductive http_error : Type := MkHttpError (content : string).

Inductive exn : Type :=
  | KeyError (key : string)
  | TypeError
  | AttributeError
  | HttpError (e : http_error)
  | OktaError (error_code : string)
  | ClientError (msg : string)
  | Exception (msg : string).

#[global] Instance http_error_eq_decision : EqDecision http_error.
Proof. solve_decision. Defined.
#[global] Instance exn_eq_decision : EqDecision exn.
Proof. solve_decision. Defined.

(** A Python expression either evaluates to a value or raises. *)
Inductive result (A : Type) : Type :=
  | Ok (a : A)
  | Raise (e : exn).
Arguments Ok {A} a.
Arguments Raise {A} e.

#[global] Instance result_ret : MRet result := λ A a, Ok a.
#[global] Instance result_bind : MBind result := λ A B f r,
  match r with Ok a => f a | Raise e => Raise e end.

Definition is_ok {A} (r : result A) : bool :=
  match r with Ok _ => true | Raise _ => false end.

(** ** Operations on Python objects *)

(** [d.get(k)] on the association list of a decoded object. *)
Fixpoint dict_get (k : string) (d : list (string * pyval)) : option pyval :=
  match d with
  | [] => None
  | (k', v) :: d' => if decide (k' = k) then Some v else dict_get k d'
  end.

(** [o.get(k, dflt)]: only a dict has a [get] attribute. *)
Definition py_get (o : pyval) (k : string) (dflt : pyval) : result pyval :=
  match o with
  | VDict d => Ok (default dflt (dict_get k d))
  | _ => Raise AttributeError
  end.

(** [o[k]] with a string key: [KeyError] on a dict without the key,
    [TypeError] on every other kind of object. *)
Definition py_getitem (o : pyval) (k : string) : result pyval :=
  match o with
  | VDict d =>
      match dict_get k d with
      | Some v => Ok v
      | None => Raise (KeyError k)
      end
  | _ => Raise TypeError
  end.

(** [o.items()], as the list of [(key, val)] tuples it yields. *)
Definition py_items (o : pyval) : result (list (string * pyval)) :=
  match o with
  | VDict d => Ok d
  | _ => Raise AttributeError
  end.

Fixpoint chars (s : string) : list pyval :=
  match s with
  | EmptyString => []
  | String c s' => VStr (String c EmptyString) :: chars s'
  end.

(** [for x in o]: the elements a [for] loop visits. *)
Definition py_iter (o : pyval) : result (list pyval) :=
  match o with
  | VList l | VTuple l => Ok l
  | VDict d => Ok (VStr ∘ fst <$> d)
  | VStr s => Ok (chars s)
  | VNone | VBool _ | VInt _ => Raise TypeError
  end.

(** [s.split(sep)] for a one-character separator. *)
Fixpoint split_on (sep : Ascii.ascii) (s : string) : list string :=
  match s with
  | EmptyString => [EmptyString]
  | String c s' =>
      if decide (c = sep) then EmptyString :: split_on sep s'
      else match split_on sep s' with
           | [] => [String c EmptyString]
           | w :: ws => String c w :: ws
           end
  end.

Definition py_split (o : pyval) (sep : Ascii.ascii) : result (list string) :=
  match o with
  | VStr s => Ok (split_on sep s)
  | _ => Raise AttributeError
  end.

(** [l[-1]] *)
Definition py_last (l : list string) : result string :=
  match last l with
  | Some s => Ok s
  | None => Raise (Exception "IndexError")
  end.

(** [for x in l: ... append(f x)] with a body that may raise. *)
Fixpoint for_each {A B} (f : A → result B) (l : list A) : result (list B) :=
  match l with
  | [] => Ok []
  | x :: l' => y ← f x; ys ← for_each f l'; Ok (y :: ys)
  end.

(** ** Transformers ([storage.py], lines 42-55 and 99-136) *)

(** A transformed record is a Python dict keyed by normalized field names;
    only lookups by key are made on it. *)
Abbreviation record := (gmap string pyval).

(** The body of the loop of [transform_gcp_buckets]: the record built for
    one raw item [b], assignment by assignment. *)
Definition transform_gcp_bucket (b : pyval) : result record :=
  let bucket : record := ∅ in
  v ← py_get b "etag" VNone;
  let bucket := <["etag" := v]> bucket in
  c ← py_get b "iamConfiguration" (VDict []);
  c ← py_get c "bucketPolicyOnly" (VDict []);
  v ← py_get c "enabled" VNone;
  let bucket := <["iam_config_bucket_policy_only" := v]> bucket in
  v ← py_getitem b "id";
  let bucket := <["id" := v]> bucket in
  c ← py_get b "labels" (VDict []);
  kvs ← py_items c;
  let bucket :=
    <["labels" := VList ((λ kv, VTuple [VStr kv.1; kv.2]) <$> kvs)]> bucket in
  c ← py_get b "owner" (VDict []);
  v ← py_get c "entity" VNone;
  let bucket := <["owner_entity" := v]> bucket in
  c ← py_get b "owner" (VDict []);
  v ← py_get c "entityId" VNone;
  let bucket := <["owner_entity_id" := v]> bucket in
  v ← py_get b "kind" VNone;
  let bucket := <["kind" := v]> bucket in
  v ← py_get b "location" VNone;
  let bucket := <["location" := v]> bucket in
  v ← py_get b "locationType" VNone;
  let bucket := <["location_type" := v]> bucket in
  v ← py_get b "metageneration" VNone;
  let bucket := <["meta_generation" := v]> bucket in
  v ← py_getitem b "projectNumber";
  let bucket := <["project_number" := v]> bucket in
  v ← py_get b "selfLink" VNone;
  let bucket := <["self_link" := v]> bucket in
  v ← py_get b "storageClass" VNone;
  let bucket := <["storage_class" := v]> bucket in
  v ← py_get b "timeCreated" VNone;
  let bucket := <["time_created" := v]> bucket in
  v ← py_get b "updated" VNone;
  let bucket := <["updated" := v]> bucket in
  c ← py_get b "versioning" (VDict []);
  v ← py_get c "enabled" VNone;
  let bucket := <["versioning_enabled" := v]> bucket in
  v ← py_get b "defaultEventBasedHold" VNone;
  let bucket := <["default_event_based_hold" := v]> bucket in
  c ← py_get b "retentionPolicy" (VDict []);
  v ← py_get c "retentionPeriod" VNone;
  let bucket := <["retention_period" := v]> bucket in
  c ← py_get b "encryption" (VDict []);
  v ← py_get c "defaultKmsKeyName" VNone;
  let bucket := <["default_kms_key_name" := v]> bucket in
  c ← py_get b "logging" (VDict []);
  v ← py_get c "logBucket" VNone;
  let bucket := <["log_bucket" := v]> bucket in
  c ← py_get b "billing" (VDict []);
  v ← py_get c "requesterPays" VNone;
  let bucket := <["requester_pays" := v]> bucket in
  Ok bucket.

Definition transform_gcp_buckets (bucket_res : pyval) : result (list record) :=
  items ← py_get bucket_res "items" (VList []);
  items ← py_iter items;
  for_each transform_gcp_bucket items.

(** [transform_gcp_bucket_iam_policy] computes [iam_list], [resource_id] and
    [bucket_id] and then falls off the end of its body: the value of the
    call is [None]. *)
Definition transform_gcp_bucket_iam_policy (iam_res : pyval) : result pyval :=
  let iam_list : list pyval := [] in
  resource_id ← py_getitem iam_res "resourceId";
  parts ← py_split resource_id "/"%char;
  bucket_id ← py_last parts;
  Ok VNone.

(** ** The graph store

    The Neo4j session is a property graph.  Nodes are identified by their
    position in [nodes] (the load never deletes), relationships refer to
    their end points by position.  No uniqueness constraint is assumed: a
    graph may hold several nodes with one key, and a pattern then binds all
    of them.  Property values are the query parameters as they are passed;
    which values the database refuses to store is left to the database
    (see [type_error] below). *)

Record node : Type := Node { labels : list string; props : gmap string pyval }.
Record edge : Type :=
  Edge { src : nat; tgt : nat; rtype : string; rprops : gmap string pyval }.
Record graph : Type := Graph { nodes : list node; edges : list edge }.

(** Cypher [SET x.k = v]: assigning [null] removes the property; reading an
    absent property yields [null]. *)
Definition set_prop (k : string) (v : pyval) (m : gmap string pyval)
    : gmap string pyval :=
  match v with
  | VNone => delete k m
  | _ => <[k := v]> m
  end.


Definition set_props (kvs : list (string * pyval)) (m : gmap string pyval)
    : gmap string pyval :=
  foldl (λ m kv, set_prop kv.1 kv.2 m) m kvs.

(** Positions of the elements of [l] satisfying [p], counted from [i]. *)
Fixpoint positions {A} (p : A → bool) (i : nat) (l : list A) : list nat :=
  match l with
  | [] => []
  | x :: l' => (if p x then [i] else []) ++ positions p (S i) l'
  end.

(** The pattern [(:lbl {key: val})]. *)
Definition node_matches (lbl key : string) (val : pyval) (n : node) : bool :=
  bool_decide (lbl ∈ labels n) && bool_decide (props n !! key = Some val).

(** [MERGE (x:lbl {key: val}) ON CREATE SET ...]: binds [x] to every node
    matching the pattern; when there is none, creates one and applies the
    [ON CREATE] assignments to it.  Returns the nodes and the bound
    positions. *)
Definition merge_node (lbl key : string) (val : pyval)
    (on_create : list (string * pyval)) (ns : list node)
    : list node * list nat :=
  match positions (node_matches lbl key val) 0 ns with
  | [] => (ns ++ [Node [lbl] (set_props on_create {[key := val]})],
           [length ns])
  | ids => (ns, ids)
  end.

(** [SET x.k1 = v1, ...] on every node bound to [x]. *)
Definition set_node (kvs : list (string * pyval)) (n : node) : node :=
  Node (labels n) (set_props kvs (props n)).

Definition set_nodes (ids : list nat) (kvs : list (string * pyval))
    (ns : list node) : list node :=
  imap (λ i n, if bool_decide (i ∈ ids) then set_node kvs n else n) ns.

(** The pattern [(s)-[:ty]->(t)] between two bound nodes. *)
Definition edge_matches (s t : nat) (ty : string) (e : edge) : bool :=
  bool_decide (src e = s) && bool_decide (tgt e = t)
  && bool_decide (rtype e = ty).

(** [MERGE (s)-[r:ty]->(t) ON CREATE SET ...] for one row [(s, t)]. *)
Definition merge_edge (s t : nat) (ty : string)
    (on_create : list (string * pyval)) (es : list edge)
    : list edge * list nat :=
  match positions (edge_matches s t ty) 0 es with
  | [] => (es ++ [Edge s t ty (set_props on_create ∅)], [length es])
  | ids => (es, ids)
  end.

(** The same clause over all rows, in row order. *)
Fixpoint merge_edges (rows : list (nat * nat)) (ty : string)
    (on_create : list (string * pyval)) (es : list edge)
    : list edge * list nat :=
  match rows with
  | [] => (es, [])
  | (s, t) :: rows' =>
      let '(es1, ids1) := merge_edge s t ty on_create es in
      let '(es2, ids2) := merge_edges rows' ty on_create es1 in
      (es2, ids1 ++ ids2)
  end.

Definition set_edge (kvs : list (string * pyval)) (e : edge) : edge :=
  Edge (src e) (tgt e) (rtype e) (set_props kvs (rprops e)).

Definition set_edges (ids : list nat) (kvs : list (string * pyval))
    (es : list edge) : list edge :=
  imap (λ i e, if bool_decide (i ∈ ids) then set_edge kvs e else e) es.

(** ** The ingestion query of [load_gcp_buckets] ([storage.py], 156-186) *)

(** The keyword arguments of [neo4j_session.run(query, ...)]. *)
Record query_params : Type := QueryParams {
  ProjectNumber : pyval;
  BucketId : pyval;
  SelfLink : pyval;
  Labels : pyval;
  Kind : pyval;
  Location : pyval;
  LocationType : pyval;
  MetaGeneration : pyval;
  StorageClass : pyval;
  TimeCreated : pyval;
  RetentionPeriod : pyval;
  IamConfigBucketPolicyOnly : pyval;
  OwnerEntity : pyval;
  OwnerEntityId : pyval;
  VersioningEnabled : pyval;
  LogBucket : pyval;
  RequesterPays : pyval;
  DefaultKmsKeyName : pyval;
  UpdateTag : Z
}.

(** The [SET] list of the [GCPBucket] node, in the order of the query. *)
Definition bucket_assignments (q : query_params) : list (string * pyval) :=
  [ ("self_link", SelfLink q);
    ("project_number", ProjectNumber q);
    ("kind", Kind q);
    ("location", Location q);
    ("location_type", LocationType q);
    ("labels", Labels q);
    ("meta_generation", MetaGeneration q);
    ("storage_class", StorageClass q);
    ("time_created", TimeCreated q);
    ("retention_period", RetentionPeriod q);
    ("iam_config_bucket_policy_only", IamConfigBucketPolicyOnly q);
    ("owner_entity", OwnerEntity q);
    ("owner_entity_id", OwnerEntityId q);
    ("lastupdated", VInt (UpdateTag q));
    ("versioning_enabled", VersioningEnabled q);
    ("log_bucket", LogBucket q);
    ("requester_pays", RequesterPays q);
    ("default_kms_key_name", DefaultKmsKeyName q) ].

(** The writes of one execution of the query at database time [now]
    ([timestamp()] has one value during a whole query), clause by clause. *)
Definition ingest (now : Z) (q : query_params) (g : graph) : graph :=
  let '(ns, ps) :=
    merge_node "GCPProject" "projectnumber" (ProjectNumber q)
      [("firstseen", VInt now)] (nodes g) in
  let ns := set_nodes ps [("lastupdated", VInt (UpdateTag q))] ns in
  let '(ns, bs) :=
    merge_node "GCPBucket" "id" (BucketId q)
      [("firstseen", VInt now); ("bucket_id", BucketId q)] ns in
  let ns := set_nodes bs (bucket_assignments q) ns in
  let '(es, rs) :=
    merge_edges (list_prod ps bs) "RESOURCE" [("firstseen", VInt now)]
      (edges g) in
  let es := set_edges rs [("lastupdated", VInt (UpdateTag q))] es in
  Graph ns es.

(** A [MERGE] on a [null] property value is refused by the database. *)
Definition mergeable (q : query_params) : bool :=
  bool_decide (ProjectNumber q ≠ VNone ∧ BucketId q ≠ VNone).

(** ** The query as creation followed by stamping

    The same query read pattern by pattern instead of position by
    position: what it creates when a pattern has no match, and what it
    assigns to whatever matches.  [ingest_stamp_create] in Part II shows
    that this reading agrees with [ingest]. *)

Definition is_project (q : query_params) (n : node) : bool :=
  node_matches "GCPProject" "projectnumber" (ProjectNumber q) n.

Definition is_bucket (q : query_params) (n : node) : bool :=
  node_matches "GCPBucket" "id" (BucketId q) n.

Definition new_project (now : Z) (q : query_params) : node :=
  Node ["GCPProject"]
    (set_props [("firstseen", VInt now)] {["projectnumber" := ProjectNumber q]}).

Definition new_bucket (now : Z) (q : query_params) : node :=
  Node ["GCPBucket"]
    (set_props [("firstseen", VInt now); ("bucket_id", BucketId q)]
       {["id" := BucketId q]}).

Definition new_resource (now : Z) (s t : nat) : edge :=
  Edge s t "RESOURCE" (set_props [("firstseen", VInt now)] ∅).

Definition add_missing {A} (p : A → bool) (x : A) (l : list A) : list A :=
  if existsb p l then l else l ++ [x].

Definition create_nodes (now : Z) (q : query_params) (ns : list node)
    : list node :=
  add_missing (is_bucket q) (new_bucket now q)
    (add_missing (is_project q) (new_project now q) ns).

(** The rows the relationship clause runs on: every project match paired
    with every bucket match. *)
Definition rows (q : query_params) (ns : list node) : list (nat * nat) :=
  list_prod (positions (is_project q) 0 ns) (positions (is_bucket q) 0 ns).

Fixpoint create_edges (now : Z) (rws : list (nat * nat)) (es : list edge)
    : list edge :=
  match rws with
  | [] => es
  | (s, t) :: rws' =>
      create_edges now rws'
        (add_missing (edge_matches s t "RESOURCE") (new_resource now s t) es)
  end.

(** The relationship is matched by one of the rows. *)
Definition row_matches (rws : list (nat * nat)) (e : edge) : bool :=
  existsb (λ st, edge_matches st.1 st.2 "RESOURCE" e) rws.

Definition create_missing (now : Z) (q : query_params) (g : graph) : graph :=
  let ns := create_nodes now q (nodes g) in
  Graph ns (create_edges now (rows q ns) (edges g)).

Definition upd_node (q : query_params) (n : node) : node :=
  let n :=
    if is_project q n
    then set_node [("lastupdated", VInt (UpdateTag q))] n else n in
  if is_bucket q n then set_node (bucket_assignments q) n else n.

(** A [RESOURCE] relationship from a project match to a bucket match. *)
Definition is_resource (q : query_params) (ns : list node) (e : edge) : bool :=
  bool_decide (rtype e = "RESOURCE")
  && from_option (is_project q) false (ns !! src e)
  && from_option (is_bucket q) false (ns !! tgt e).

Definition upd_edge (q : query_params) (ns : list node) (e : edge) : edge :=
  if is_resource q ns e
  then set_edge [("lastupdated", VInt (UpdateTag q))] e else e.

Definition stamp (q : query_params) (g : graph) : graph :=
  Graph (upd_node q <$> nodes g) (upd_edge q (nodes g) <$> edges g).

(** Every pattern of the query already has a match. *)
Definition covered (q : query_params) (g : graph) : Prop :=
  existsb (is_project q) (nodes g) = true
  ∧ existsb (is_bucket q) (nodes g) = true
  ∧ ∀ s t, (s, t) ∈ rows q (nodes g) →
           existsb (edge_matches s t "RESOURCE") (edges g) = true.

(** What a node or relationship keeps of an assigned value, and the value
    a list of assignments leaves under a key (the last one wins). *)
Definition stored (v : pyval) : option pyval :=
  match v with
  | VNone => None
  | _ => Some v
  end.

Fixpoint assigned (k : string) (kvs : list (string * pyval)) : option pyval :=
  match kvs with
  | [] => None
  | (k', v) :: kvs' =>
      match assigned k kvs' with
      | Some v' => Some v'
      | None => if decide (k' = k) then Some v else None
      end
  end.

(** What the patterns of the query look at in a node. *)
Definition key_view (n : node)
    : list string * option pyval * option pyval :=
  (labels n, props n !! "projectnumber", props n !! "id").

(** The queries of a whole load, the [i]-th of the session being run at
    [clock i]; and their stamping alone. *)
Fixpoint ingest_all (clock : nat → Z) (i : nat) (qs : list query_params)
    (g : graph) : graph :=
  match qs with
  | [] => g
  | q :: qs' => ingest_all clock (S i) qs' (ingest (clock i) q g)
  end.

Definition stamp_all (qs : list query_params) (g : graph) : graph :=
  foldl (λ g q, stamp q g) g qs.

Definition upd_nodes (qs : list query_params) (n : node) : node :=
  foldl (λ n q, upd_node q n) n qs.

Definition upd_edges (qs : list query_params) (ns : list node) (e : edge)
    : edge :=
  foldl (λ e q, upd_edge q ns e) e qs.

(** Two nodes (relationships) that differ at most in the properties
    named by [K]. *)
Definition node_agree (K : list string) (n n' : node) : Prop :=
  labels n = labels n' ∧ ∀ k, k ∉ K → props n !! k = props n' !! k.

Definition edge_agree (K : list string) (e e' : edge) : Prop :=
  src e = src e' ∧ tgt e = tgt e' ∧ rtype e = rtype e'
  ∧ ∀ k, k ∉ K → rprops e !! k = rprops e' !! k.

(** The properties the query assigns on every execution. *)
Definition mutable_keys : list string :=
  [ "self_link"; "project_number"; "kind"; "location"; "location_type";
    "labels"; "meta_generation"; "storage_class"; "time_created";
    "retention_period"; "iam_config_bucket_policy_only"; "owner_entity";
    "owner_entity_id"; "lastupdated"; "versioning_enabled"; "log_bucket";
    "requester_pays"; "default_kms_key_name" ].


(** ** Collaborators outside the two modules

    Calls into other modules of the repository are described by their
    function and arguments.  The session argument and the [OktaSyncState]
    object some stages receive are left implicit: both live in the world
    the call acts on. *)

Inductive call : Type :=
  | run_cleanup_job (job : string) (common_job_parameters : gmap string pyval)
  | create_okta_organization (okta_org_id : pyval) (update_tag : Z)
  | sync_okta_users (okta_org_id : pyval) (update_tag : Z) (okta_api_key : pyval)
  | sync_okta_groups (okta_org_id : pyval) (update_tag : Z) (okta_api_key : pyval)
  | sync_okta_applications
      (okta_org_id : pyval) (update_tag : Z) (okta_api_key : pyval)
  | sync_users_factors
      (okta_org_id : pyval) (update_tag : Z) (okta_api_key : pyval)
  | sync_trusted_origins
      (okta_org_id : pyval) (update_tag : Z) (okta_api_key : pyval)
  | sync_okta_aws_saml (okta_saml_role_regex : pyval) (update_tag : Z)
  | sync_roles (okta_org_id : pyval) (update_tag : Z) (okta_api_key : pyval).

Inductive level : Type := DEBUG | WARNING.

(** What a run leaves behind besides the graph: log records and calls made
    to collaborators. *)
Inductive event : Type :=
  | Logged (lvl : level) (msg : string)
  | Called (c : call).

(** The world a connector runs in: the graph behind the session, the
    [OktaSyncState] object of the current run, the number of queries the
    session has executed, and the events so far. *)
Record world : Type := World {
  db : graph;
  sync_state : pyval;
  ticks : nat;
  log : list event
}.

(** [compute._get_error_reason], of [cartography.intel.gcp.compute]. *)
Class Compute := _get_error_reason : http_error → string.

(** The database behind the session.  [timestamp n] is the value of
    Cypher's [timestamp()] during the [n]-th query of the session;
    [type_error q] is the error, if any, with which the database refuses
    the parameters of a query because one of them cannot be stored as a
    property value. *)
Class Database := {
  timestamp : nat → Z;
  type_error : query_params → option exn
}.

(** The collaborators: what a call does to the graph and to the sync state,
    and whether it raises; [OktaSyncState()] builds a fresh state object. *)
Class Collaborators := {
  perform : call → graph * pyval → (graph * pyval) * result unit;
  OktaSyncState : pyval
}.

(** ** Effectful code: state that survives a raised exception *)

Definition M (A : Type) : Type := world → world * result A.

#[global] Instance M_ret : MRet M := λ A a w, (w, Ok a).
#[global] Instance M_bind : MBind M := λ A B f m w,
  match m w with
  | (w', Ok a) => f a w'
  | (w', Raise e) => (w', Raise e)
  end.

Definition raise {A} (e : exn) : M A := λ w, (w, Raise e).

Definition lift {A} (r : result A) : M A := λ w, (w, r).

(** [try: m  except <handled> as e: h e]; [h e = None] when the [except]
    clause does not apply to [e]. *)
Definition try_except {A} (m : M A) (h : exn → option (M A)) : M A := λ w,
  match m w with
  | (w', Ok a) => (w', Ok a)
  | (w', Raise e) =>
      match h e with
      | Some k => k w'
      | None => (w', Raise e)
      end
  end.

Definition logger (lvl : level) (msg : string) : M unit := λ w,
  (World (db w) (sync_state w) (ticks w) (log w ++ [Logged lvl msg]), Ok tt).

Definition invoke `{Collaborators} (c : call) : M unit := λ w,
  let '((g, s), r) := perform c (db w, sync_state w) in
  (World g s (ticks w) (log w ++ [Called c]), r).

(** Whether the database refuses the query, which depends on its
    parameters only; a refused query writes nothing. *)
Definition refusal `{Database} (q : query_params) : option exn :=
  match type_error q with
  | Some e => Some e
  | None =>
      if mergeable q then None
      else Some (ClientError "Cannot merge node using null property value")
  end.

Definition run_query `{Database} (now : Z) (q : query_params) (g : graph)
    : result graph :=
  match refusal q with
  | None => Ok (ingest now q g)
  | Some e => Raise e
  end.

(** [neo4j_session.run(query, ...)] with the ingestion query. *)
Definition session_run `{Database} (q : query_params) : M unit := λ w,
  match run_query (timestamp (ticks w)) q (db w) with
  | Ok g => (World g (sync_state w) (S (ticks w)) (log w), Ok tt)
  | Raise e => (World (db w) (sync_state w) (S (ticks w)) (log w), Raise e)
  end.

(** Truth value of an object, as [not x] tests it. *)
Definition truthy (v : pyval) : bool :=
  match v with
  | VNone => false
  | VBool b => b
  | VInt z => bool_decide (z ≠ 0%Z)
  | VStr s => bool_decide (s ≠ EmptyString)
  | VList l | VTuple l => bool_decide (l ≠ [])
  | VDict d => bool_decide (d ≠ [])
  end.

(** ** [cartography/intel/gcp/storage.py] *)

(** The storage resource object built by [googleapiclient.discovery.build]:
    [buckets_list p] is [storage.buckets().list(project=p).execute()] and
    [buckets_getIamPolicy b] is
    [storage.buckets().getIamPolicy(bucket=b).execute()]. *)
Record storage_resource : Type := StorageResource {
  buckets_list : string → result pyval;
  buckets_getIamPolicy : string → result pyval
}.

Definition get_gcp_bucket_iam_policy `{Compute}
    (storage : storage_resource) (bucket : string) : M pyval :=
  try_except (lift (buckets_getIamPolicy storage bucket))
    (λ ex, match ex with
           | HttpError e =>
               Some (
                 let reason := _get_error_reason e in
                 if decide (reason = "notFound") then
                   logger DEBUG
                     "The bucket %s was not found - returned a 404 not found error.Full details: %s";;
                   mret VNone
                 else if decide (reason = "forbidden") then
                   logger DEBUG
                     "You do not have storage.bucket.getIamPolicy access to the bucket %s. Full details: %s";;
                   mret VNone
                 else raise ex)
           | _ => None
           end).

Definition get_gcp_buckets `{Compute}
    (storage : storage_resource) (project_id : string) : M pyval :=
  try_except (lift (buckets_list storage project_id))
    (λ ex, match ex with
           | HttpError e =>
               Some (
                 let reason := _get_error_reason e in
                 if decide (reason = "invalid") then
                   logger WARNING
                     "The project %s is invalid - returned a 400 invalid error.Full details: %s";;
                   mret (VDict [])
                 else if decide (reason = "forbidden") then
                   logger WARNING
                     "You do not have storage.bucket.list access to the project %s. Full details: %s";;
                   mret (VDict [])
                 else raise ex)
           | _ => None
           end).

(** [bucket[k]] on a transformed record. *)
Definition rec_getitem (bucket : record) (k : string) : result pyval :=
  match bucket !! k with
  | Some v => Ok v
  | None => Raise (KeyError k)
  end.

(** The keyword arguments of the call at lines 188-209, evaluated in the
    order they are written. *)
Definition query_args (bucket : record) (gcp_update_tag : Z)
    : result query_params :=
  pn ← rec_getitem bucket "project_number";
  bid ← rec_getitem bucket "id";
  sl ← rec_getitem bucket "self_link";
  lb ← rec_getitem bucket "labels";
  kd ← rec_getitem bucket "kind";
  lc ← rec_getitem bucket "location";
  lt ← rec_getitem bucket "location_type";
  mg ← rec_getitem bucket "meta_generation";
  sc ← rec_getitem bucket "storage_class";
  tc ← rec_getitem bucket "time_created";
  rp ← rec_getitem bucket "retention_period";
  ic ← rec_getitem bucket "iam_config_bucket_policy_only";
  oe ← rec_getitem bucket "owner_entity";
  oi ← rec_getitem bucket "owner_entity_id";
  ve ← rec_getitem bucket "versioning_enabled";
  lg ← rec_getitem bucket "log_bucket";
  rq ← rec_getitem bucket "requester_pays";
  dk ← rec_getitem bucket "default_kms_key_name";
  Ok (QueryParams pn bid sl lb kd lc lt mg sc tc rp ic oe oi ve lg rq dk
        gcp_update_tag).

Fixpoint load_gcp_buckets `{Database} (buckets : list record) (gcp_update_tag : Z)
    : M unit :=
  match buckets with
  | [] => mret tt
  | bucket :: buckets' =>
      q ← lift (query_args bucket gcp_update_tag);
      session_run q;;
      load_gcp_buckets buckets' gcp_update_tag
  end.

Definition cleanup_gcp_buckets `{Collaborators}
    (common_job_parameters : gmap string pyval) : M unit :=
  invoke (run_cleanup_job "gcp_storage_bucket_cleanup.json"
            common_job_parameters).

Definition sync_gcp_buckets `{Compute, Database, Collaborators}
    (storage : storage_resource) (project_id : string) (gcp_update_tag : Z)
    (common_job_parameters : gmap string pyval) : M unit :=
  storage_res ← get_gcp_buckets storage project_id;
  bucket_list ← lift (transform_gcp_buckets storage_res);
  load_gcp_buckets bucket_list gcp_update_tag;;
  cleanup_gcp_buckets common_job_parameters.

(** The loop of [load_gcp_buckets] seen from outside: the queries that were
    executed before the loop ended or raised, the number of calls to
    [neo4j_session.run], and how the call ends.  None of them depends on
    the graph. *)
Fixpoint accepted `{Database} (buckets : list record) (gcp_update_tag : Z)
    : list query_params :=
  match buckets with
  | [] => []
  | bucket :: buckets' =>
      match query_args bucket gcp_update_tag with
      | Ok q =>
          match refusal q with
          | None => q :: accepted buckets' gcp_update_tag
          | Some _ => []
          end
      | Raise _ => []
      end
  end.

Fixpoint queries_sent `{Database} (buckets : list record) (gcp_update_tag : Z)
    : nat :=
  match buckets with
  | [] => 0
  | bucket :: buckets' =>
      match query_args bucket gcp_update_tag with
      | Ok q =>
          match refusal q with
          | None => S (queries_sent buckets' gcp_update_tag)
          | Some _ => 1
          end
      | Raise _ => 0
      end
  end.

Fixpoint load_outcome `{Database} (buckets : list record) (gcp_update_tag : Z)
    : result unit :=
  match buckets with
  | [] => Ok tt
  | bucket :: buckets' =>
      match query_args bucket gcp_update_tag with
      | Ok q =>
          match refusal q with
          | None => load_outcome buckets' gcp_update_tag
          | Some e => Raise e
          end
      | Raise e => Raise e
      end
  end.

(** ** [cartography/intel/okta/__init__.py] *)

(** The fields of the [cartography.config] object the orchestrator reads. *)
Record config : Type := Config {
  okta_api_key : pyval;
  okta_org_id : pyval;
  update_tag : Z;
  okta_saml_role_regex : pyval
}.

Definition _cleanup_okta_organizations `{Collaborators}
    (common_job_parameters : gmap string pyval) : M unit :=
  invoke (run_cleanup_job "okta_import_cleanup.json" common_job_parameters).

(** [state = OktaSyncState()] *)
Definition new_sync_state `{Collaborators} : M unit := λ w,
  (World (db w) OktaSyncState (ticks w) (log w), Ok tt).

Definition start_okta_ingestion `{Collaborators} (config : config) : M unit :=
  if negb (truthy (okta_api_key config)) then
    logger WARNING
      "No valid Okta credentials could be found. Exiting Okta sync stage."
  else
    logger DEBUG "Starting Okta sync on {config.okta_org_id}";;
    let common_job_parameters : gmap string pyval :=
      <["OKTA_ORG_ID" := okta_org_id config]>
        (<["UPDATE_TAG" := VInt (update_tag config)]> ∅) in
    new_sync_state;;
    invoke (create_okta_organization (okta_org_id config) (update_tag config));;
    invoke (sync_okta_users (okta_org_id config) (update_tag config)
              (okta_api_key config));;
    invoke (sync_okta_groups (okta_org_id config) (update_tag config)
              (okta_api_key config));;
    invoke (sync_okta_applications (okta_org_id config) (update_tag config)
              (okta_api_key config));;
    invoke (sync_users_factors (okta_org_id config) (update_tag config)
              (okta_api_key config));;
    invoke (sync_trusted_origins (okta_org_id config) (update_tag config)
              (okta_api_key config));;
    invoke (sync_okta_aws_saml (okta_saml_role_regex config)
              (update_tag config));;
    try_except
      (invoke (sync_roles (okta_org_id config) (update_tag config)
                 (okta_api_key config)))
      (λ ex, match ex with
             | OktaError error_code =>
                 Some (
                   logger WARNING "Unable to pull admin roles got {okta_error}";;
                   if decide (error_code = "E0000006") then
                     logger WARNING
                       "Unable to sync admin roles - api token needs admin rights to pull admin roles data"
                   else mret tt)
             | _ => None
             end);;
    _cleanup_okta_organizations common_job_parameters.

(** ** Vocabulary of the statements *)

(** The keys of a record built by [transform_gcp_buckets]. *)
Definition normalized_keys : gset string :=
  list_to_set
    [ "etag"; "iam_config_bucket_policy_only"; "id"; "labels"; "owner_entity";
      "owner_entity_id"; "kind"; "location"; "location_type";
      "meta_generation"; "project_number"; "self_link"; "storage_class";
      "time_created"; "updated"; "versioning_enabled";
      "default_event_based_hold"; "retention_period"; "default_kms_key_name";
      "log_bucket"; "requester_pays" ].

(** Optional field of a raw item, the record key it feeds, and the value
    the record holds when the field is absent. *)
Definition optional_fields : list (string * string * pyval) :=
  [ ("etag", "etag", VNone);
    ("iamConfiguration", "iam_config_bucket_policy_only", VNone);
    ("labels", "labels", VList []);
    ("owner", "owner_entity", VNone);
    ("owner", "owner_entity_id", VNone);
    ("kind", "kind", VNone);
    ("location", "location", VNone);
    ("locationType", "location_type", VNone);
    ("metageneration", "meta_generation", VNone);
    ("selfLink", "self_link", VNone);
    ("storageClass", "storage_class", VNone);
    ("timeCreated", "time_created", VNone);
    ("updated", "updated", VNone);
    ("versioning", "versioning_enabled", VNone);
    ("defaultEventBasedHold", "default_event_based_hold", VNone);
    ("retentionPolicy", "retention_period", VNone);
    ("encryption", "default_kms_key_name", VNone);
    ("logging", "log_bucket", VNone);
    ("billing", "requester_pays", VNone) ].

(** The field [k] of the object [d] is absent or is itself an object. *)
Definition object_or_absent (k : string) (d : list (string * pyval)) : bool :=
  match dict_get k d with
  | None | Some (VDict _) => true
  | Some _ => false
  end.

(** The object under [k], the empty object when [k] is absent. *)
Definition nested (k : string) (d : list (string * pyval))
    : list (string * pyval) :=
  match dict_get k d with
  | Some (VDict c) => c
  | _ => []
  end.

(** A raw bucket item: an object carrying its two mandatory fields, whose
    structured optional fields are objects wherever they are present. *)
Definition bucket_item (b : pyval) : bool :=
  match b with
  | VDict d =>
      bool_decide (is_Some (dict_get "id" d))
      && bool_decide (is_Some (dict_get "projectNumber" d))
      && forallb (λ k, object_or_absent k d)
           [ "iamConfiguration"; "labels"; "owner"; "versioning";
             "retentionPolicy"; "encryption"; "logging"; "billing" ]
      && object_or_absent "bucketPolicyOnly" (nested "iamConfiguration" d)
  | _ => false
  end.

Definition field_absent (f : string) (b : pyval) : Prop :=
  match b with
  | VDict d => dict_get f d = None
  | _ => False
  end.

(** The update tag a collaborator receives with a call. *)
Definition call_tag (c : call) : pyval :=
  match c with
  | run_cleanup_job _ p => default VNone (p !! "UPDATE_TAG")
  | create_okta_organization _ t
  | sync_okta_users _ t _
  | sync_okta_groups _ t _
  | sync_okta_applications _ t _
  | sync_users_factors _ t _
  | sync_trusted_origins _ t _
  | sync_okta_aws_saml _ t
  | sync_roles _ t _ => VInt t
  end.

(** The calls of lines 52-58 of the Okta orchestrator, in order. *)
Definition stages_before_roles (c : config) : list call :=
  [ create_okta_organization (okta_org_id c) (update_tag c);
    sync_okta_users (okta_org_id c) (update_tag c) (okta_api_key c);
    sync_okta_groups (okta_org_id c) (update_tag c) (okta_api_key c);
    sync_okta_applications (okta_org_id c) (update_tag c) (okta_api_key c);
    sync_users_factors (okta_org_id c) (update_tag c) (okta_api_key c);
    sync_trusted_origins (okta_org_id c) (update_tag c) (okta_api_key c);
    sync_okta_aws_saml (okta_saml_role_regex c) (update_tag c) ].

Definition okta_job_parameters (c : config) : gmap string pyval :=
  <["OKTA_ORG_ID" := okta_org_id c]> (<["UPDATE_TAG" := VInt (update_tag c)]> ∅).

Fixpoint invoke_all `{Collaborators} (cs : list call) : M unit :=
  match cs with
  | [] => mret tt
  | c :: cs' => invoke c;; invoke_all cs'
  end.

(** Lines 43-58 of the Okta orchestrator: everything before the roles
    stage. *)
Definition okta_prologue `{Collaborators} (c : config) : M unit :=
  logger DEBUG "Starting Okta sync on {config.okta_org_id}";;
  new_sync_state;;
  invoke_all (stages_before_roles c).

(** Every node and relationship of [g'] is as it was in [g] or carries
    the tag [t] as [lastupdated]. *)
Definition written (t : Z) (g g' : graph) : Prop :=
  (∀ i n, nodes g' !! i = Some n →
          nodes g !! i = Some n ∨ props n !! "lastupdated" = Some (VInt t))
  ∧ (∀ i e, edges g' !! i = Some e →
            edges g !! i = Some e
            ∨ rprops e !! "lastupdated" = Some (VInt t)).

(** The computation only appends to the log, and every call it makes to a
    collaborator satisfies [P]. *)
Definition emits {A} (P : call → Prop) (m : M A) : Prop :=
  ∀ w, ∃ evs, log (m w).1 = log w ++ evs ∧ ∀ c, Called c ∈ evs → P c.

(** Lines 250-252 of [sync_gcp_buckets]: everything before the cleanup. *)
Definition fetch_transform_load `{Compute, Database}
    (storage : storage_resource) (project_id : string) (gcp_update_tag : Z)
    : M unit :=
  storage_res ← get_gcp_buckets storage project_id;
  bucket_list ← lift (transform_gcp_buckets storage_res);
  load_gcp_buckets bucket_list gcp_update_tag.

(** The world after a call made in [w] left the store [s]. *)
Definition after_call (c : call) (s : graph * pyval) (w : world) : world :=
  World s.1 s.2 (ticks w) (log w ++ [Called c]).

Definition with_log (w : world) (evs : list event) : world :=
  World (db w) (sync_state w) (ticks w) (log w ++ evs).

(** ** Concrete collaborators and inputs for the examples *)

(** An error classifier reading the reason off the payload. *)
Definition reason_of_content : Compute :=
  λ e, match e with MkHttpError c => c end.

(** A database whose clock starts at 1000 and which stores every value. *)
Definition example_database : Database :=
  {| timestamp := λ n, (1000 + Z.of_nat n)%Z; type_error := λ _, None |}.

(** Collaborators that succeed and write nothing. *)
Definition idle_collaborators : Collaborators :=
  {| perform := λ _ s, (s, Ok tt); OktaSyncState := VDict [] |}.

(** The same, except that the roles stage raises an [OktaError] with the
    given error code. *)
Definition roles_failing (error_code : string) : Collaborators :=
  {| perform := λ c s,
       match c with
       | sync_roles _ _ _ => (s, Raise (OktaError error_code))
       | _ => (s, Ok tt)
       end;
     OktaSyncState := VDict [] |}.

(** The same, except that the users stage raises after writing a node. *)
Definition users_failing : Collaborators :=
  {| perform := λ c s,
       match c with
       | sync_okta_users _ _ _ =>
           ((Graph (nodes s.1 ++ [Node ["OktaUser"] ∅]) (edges s.1), s.2),
            Raise (Exception "ConnectionError"))
       | _ => (s, Ok tt)
       end;
     OktaSyncState := VDict [] |}.

Definition empty_world : world := World (Graph [] []) VNone 0 [].

(** A storage client whose calls raise an [HttpError] with the given
    payload. *)
Definition failing_storage (content : string) : storage_resource :=
  StorageResource (λ _, Raise (HttpError (MkHttpError content)))
                  (λ _, Raise (HttpError (MkHttpError content))).

(** A storage client whose bucket listing returns [res]. *)
Definition listing_storage (res : pyval) : storage_resource :=
  StorageResource (λ _, Ok res)
                  (λ _, Raise (HttpError (MkHttpError "notFound"))).

(** The two bucket items of the end-to-end scenario and the records the
    transformer builds from them. *)
Definition example_response : pyval :=
  VDict [("items",
          VList [ VDict [ ("id", VStr "b1"); ("projectNumber", VStr "p1");
                          ("labels", VDict []) ];
                  VDict [ ("id", VStr "b2"); ("projectNumber", VStr "p1");
                          ("labels", VDict [("env", VStr "prod")]) ] ])].

Definition example_buckets : list record :=
  match transform_gcp_buckets example_response with
  | Ok records => records
  | Raise _ => []
  end.

Definition okta_config : config :=
  Config (VStr "token") (VStr "org") 100 VNone.

(** ** Vocabulary of the further properties *)

(** A raw field read with a plain [b.get(f)] and the record key it feeds. *)
Definition scalar_fields : list (string * string) :=
  [ ("etag", "etag"); ("kind", "kind"); ("location", "location");
    ("locationType", "location_type"); ("metageneration", "meta_generation");
    ("selfLink", "self_link"); ("storageClass", "storage_class");
    ("timeCreated", "time_created"); ("updated", "updated");
    ("defaultEventBasedHold", "default_event_based_hold") ].

(** A raw field read with [b.get(outer, {}).get(inner)] and the record key
    it feeds. *)
Definition nested_fields : list (string * string * string) :=
  [ ("owner", "entity", "owner_entity");
    ("owner", "entityId", "owner_entity_id");
    ("versioning", "enabled", "versioning_enabled");
    ("retentionPolicy", "retentionPeriod", "retention_period");
    ("encryption", "defaultKmsKeyName", "default_kms_key_name");
    ("logging", "logBucket", "log_bucket");
    ("billing", "requesterPays", "requester_pays") ].

(** The record keys [load_gcp_buckets] reads (lines 190-207). *)
Definition loaded_keys : list string :=
  [ "project_number"; "id"; "self_link"; "labels"; "kind"; "location";
    "location_type"; "meta_generation"; "storage_class"; "time_created";
    "retention_period"; "iam_config_bucket_policy_only"; "owner_entity";
    "owner_entity_id"; "versioning_enabled"; "log_bucket"; "requester_pays";
    "default_kms_key_name" ].

(** No two nodes share a project number or a bucket id, and no two
    [RESOURCE] relationships share both end points. *)
Definition unique_keys (g : graph) : Prop :=
  (∀ v, length (positions (node_matches "GCPProject" "projectnumber" v) 0
                  (nodes g)) ≤ 1)
  ∧ (∀ v, length (positions (node_matches "GCPBucket" "id" v) 0 (nodes g))
          ≤ 1)
  ∧ ∀ s t, length (positions (edge_matches s t "RESOURCE") 0 (edges g)) ≤ 1.

(** The calls among the events of a log, in order. *)
Definition calls_of (evs : list event) : list call :=
  omap (λ ev, match ev with Called c => Some c | Logged _ _ => None end) evs.

(** The calls of [start_okta_ingestion], in the order of the source
    (lines 52-58, 65 and 73). *)
Definition okta_calls (c : config) : list call :=
  stages_before_roles c
  ++ [ sync_roles (okta_org_id c) (update_tag c) (okta_api_key c);
       run_cleanup_job "okta_import_cleanup.json" (okta_job_parameters c) ].

(* ===================================================================== *)
(** * Part II. Properties                                                  *)
(* ===================================================================== *)

(** ** Resource client adapters *)

Section Triage.
Context `{Compute}.

Lemma get_gcp_buckets_returned storage project_id res w :
  buckets_list storage project_id = Ok res →
  get_gcp_buckets storage project_id w = (w, Ok res).
Proof. intros E. unfold get_gcp_buckets, try_except, lift. by rewrite E. Qed.
End Triage.

(** C4. When listing the buckets raises an [HttpError] whose reason is
    "forbidden" or "invalid", [get_gcp_buckets] returns the empty result
    [{}] without raising and leaves the graph alone; for every other
    reason the same [HttpError] propagates to the caller. *)
Theorem get_gcp_buckets_triage `{Compute}
    (storage : storage_resource) (project_id : string) (e : http_error)
    (w : world) :
  buckets_list storage project_id = Raise (HttpError e) →
  (_get_error_reason e = "forbidden" ∨ _get_error_reason e = "invalid" →
     (get_gcp_buckets storage project_id w).2 = Ok (VDict [])
     ∧ db (get_gcp_buckets storage project_id w).1 = db w)
  ∧ (_get_error_reason e ≠ "forbidden" → _get_error_reason e ≠ "invalid" →
     get_gcp_buckets storage project_id w = (w, Raise (HttpError e))).
Proof.
  intros E. unfold get_gcp_buckets, try_except, lift. rewrite E. simpl.
  split.
  - intros [R | R]; rewrite R; by repeat case_decide.
  - intros N1 N2. by repeat case_decide.
Qed.

(** C5. When fetching a bucket's IAM policy raises an [HttpError] whose
    reason is "notFound" or "forbidden", [get_gcp_bucket_iam_policy]
    returns the empty result [None] without raising; for every other
    reason the same [HttpError] propagates to the caller. *)
Theorem get_gcp_bucket_iam_policy_triage `{Compute}
    (storage : storage_resource) (bucket : string) (e : http_error)
    (w : world) :
  buckets_getIamPolicy storage bucket = Raise (HttpError e) →
  (_get_error_reason e = "notFound" ∨ _get_error_reason e = "forbidden" →
     (get_gcp_bucket_iam_policy storage bucket w).2 = Ok VNone
     ∧ db (get_gcp_bucket_iam_policy storage bucket w).1 = db w)
  ∧ (_get_error_reason e ≠ "notFound" → _get_error_reason e ≠ "forbidden" →
     get_gcp_bucket_iam_policy storage bucket w = (w, Raise (HttpError e))).
Proof.
  intros E. unfold get_gcp_bucket_iam_policy, try_except, lift. rewrite E.
  simpl. split.
  - intros [R | R]; rewrite R; by repeat case_decide.
  - intros N1 N2. by repeat case_decide.
Qed.

Lemma get_gcp_buckets_triage_witness :
  (get_gcp_buckets (H := reason_of_content)
     (failing_storage "forbidden") "p1" empty_world).2 = Ok (VDict [])
  ∧ get_gcp_buckets (H := reason_of_content)
      (failing_storage "quotaExceeded") "p1" empty_world
    = (empty_world, Raise (HttpError (MkHttpError "quotaExceeded"))).
Proof.
  split.
  - apply (get_gcp_buckets_triage (H := reason_of_content)
             (failing_storage "forbidden") "p1" (MkHttpError "forbidden")
             empty_world eq_refl).
    left. reflexivity.
  - apply (get_gcp_buckets_triage (H := reason_of_content)
             (failing_storage "quotaExceeded") "p1"
             (MkHttpError "quotaExceeded") empty_world eq_refl);
      discriminate.
Defined.

Lemma get_gcp_bucket_iam_policy_triage_witness :
  (get_gcp_bucket_iam_policy (H := reason_of_content)
     (failing_storage "notFound") "b1" empty_world).2 = Ok VNone
  ∧ get_gcp_bucket_iam_policy (H := reason_of_content)
      (failing_storage "backendError") "b1" empty_world
    = (empty_world, Raise (HttpError (MkHttpError "backendError"))).
Proof.
  split.
  - apply (get_gcp_bucket_iam_policy_triage (H := reason_of_content)
             (failing_storage "notFound") "b1" (MkHttpError "notFound")
             empty_world eq_refl).
    left. reflexivity.
  - apply (get_gcp_bucket_iam_policy_triage (H := reason_of_content)
             (failing_storage "backendError") "b1"
             (MkHttpError "backendError") empty_world eq_refl);
      discriminate.
Defined.

(** ** Transformers *)

Lemma py_get_nested k d :
  object_or_absent k d = true →
  py_get (VDict d) k (VDict []) = Ok (VDict (nested k d)).
Proof.
  unfold object_or_absent, nested, py_get.
  destruct (dict_get k d) as [[]|]; simpl; congruence.
Qed.

Lemma nested_absent k d : dict_get k d = None → nested k d = [].
Proof. unfold nested. by intros ->. Qed.

Lemma for_each_Forall2 {A B} (f : A → result B) (P : A → B → Prop) l :
  Forall (λ x, ∃ y, f x = Ok y ∧ P x y) l →
  ∃ ys, for_each f l = Ok ys ∧ Forall2 P l ys.
Proof.
  induction 1 as [|x l (y & E & Hy) _ (ys & Es & Hys)]; simpl.
  - eexists; split; [done | constructor].
  - rewrite E. simpl. rewrite Es. simpl.
    eexists; split; [done | by constructor].
Qed.

Lemma for_each_inv {A B} (f : A → result B) l ys :
  for_each f l = Ok ys → Forall2 (λ x y, f x = Ok y) l ys.
Proof.
  revert ys. induction l as [|x l IH]; simpl; intros ys E.
  - injection E as <-. constructor.
  - destruct (f x) as [y|] eqn:Ex; simpl in E; [|done].
    destruct (for_each f l) as [ys'|]; simpl in E; [|done].
    injection E as <-. constructor; auto.
Qed.

(** The record built for one raw bucket item has every normalized key,
    and holds the default wherever an
    optional field is absent. *)
Lemma transform_gcp_bucket_item b :
  bucket_item b = true →
  ∃ r, transform_gcp_bucket b = Ok r
       ∧ dom r = normalized_keys
       ∧ ∀ f k dflt, (f, k, dflt) ∈ optional_fields →
                     field_absent f b → r !! k = Some dflt.
Proof.
  destruct b as [| | | | | |d]; try discriminate. simpl.
  rewrite !andb_true_iff, !bool_decide_eq_true.
  intros H. destruct H as [[[[vid Hid] [vpn Hpn]] (Hic & Hlb & How & Hve & Hrp & Hen & Hlg & Hbi & _)] Hbpo].
  unfold transform_gcp_bucket.
  rewrite !(py_get_nested "iamConfiguration") by done.
  rewrite !(py_get_nested "labels") by done.
  rewrite !(py_get_nested "owner") by done.
  rewrite !(py_get_nested "versioning") by done.
  rewrite !(py_get_nested "retentionPolicy") by done.
  rewrite !(py_get_nested "encryption") by done.
  rewrite !(py_get_nested "logging") by done.
  rewrite !(py_get_nested "billing") by done.
  cbn [mbind result_bind].
  rewrite (py_get_nested "bucketPolicyOnly") by done.
  cbn [mbind result_bind py_get py_getitem py_items].
  rewrite Hid, Hpn.
  cbn [mbind result_bind].
  eexists. split; [reflexivity|]. split.
  - rewrite !dom_insert_L, dom_empty_L. reflexivity.
  - intros f k dflt Hin Habs.
    unfold optional_fields in Hin.
    repeat (apply elem_of_cons in Hin as [Hin|Hin]);
      try (by apply elem_of_nil in Hin);
      injection Hin as -> -> ->; simpl in Habs;
      rewrite ?(nested_absent _ _ Habs), ?Habs; by simplify_map_eq.
Qed.

Lemma Ok_inj {A} (a b : A) : Ok a = Ok b → a = b.
Proof. congruence. Qed.

Ltac bind_inv H :=
  repeat match type of H with
         | mbind _ ?m = Ok _ =>
             let E := fresh "E" in
             destruct m eqn:E; cbn [mbind result_bind] in H;
             [|discriminate H]
         end.

Lemma transform_gcp_bucket_id b r :
  transform_gcp_bucket b = Ok r →
  ∃ v, py_getitem b "id" = Ok v ∧ r !! "id" = Some v.
Proof.
  unfold transform_gcp_bucket. intros H. bind_inv H.
  apply Ok_inj in H. subst r. eexists. split; [done|]. by simplify_map_eq.
Qed.

(** Whenever [transform_gcp_buckets] returns, it returns one record per
    raw item, in order, and each record carries the item's [id]
    unchanged. *)
Lemma transform_gcp_buckets_one_record_per_item bucket_res records :
  transform_gcp_buckets bucket_res = Ok records →
  ∃ items, (py_get bucket_res "items" (VList []) ≫= py_iter) = Ok items
           ∧ length records = length items
           ∧ Forall2 (λ b r, ∃ v, py_getitem b "id" = Ok v
                                  ∧ r !! "id" = Some v) items records.
Proof.
  unfold transform_gcp_buckets. intros H. bind_inv H.
  apply for_each_inv in H. eexists. split; [done|]. split.
  - symmetry. by eapply Forall2_length.
  - eapply Forall2_impl; [exact H|]. apply transform_gcp_bucket_id.
Qed.

(** C6 (failing input).  On an IAM policy naming its bucket and holding
    one binding, [transform_gcp_bucket_iam_policy] returns [None]: neither
    a sequence nor a record carrying the bucket id. *)
Theorem transform_gcp_bucket_iam_policy_returns_none :
  transform_gcp_bucket_iam_policy
    (VDict [ ("resourceId", VStr "projects/_/buckets/b1");
             ("bindings",
              VList [ VDict [ ("role", VStr "roles/storage.admin");
                              ("members", VList [VStr "user:a@example.com"])
                            ] ]) ])
  = Ok VNone.
Proof. reflexivity. Qed.

(** No input makes [transform_gcp_bucket_iam_policy] return anything but
    [None]. *)
Lemma transform_gcp_bucket_iam_policy_only_none iam_res v :
  transform_gcp_bucket_iam_policy iam_res = Ok v → v = VNone.
Proof.
  unfold transform_gcp_bucket_iam_policy. intros H. bind_inv H. congruence.
Qed.

(** C7. For a raw response whose items are bucket items (objects with
    their [id] and [projectNumber]), whichever optional fields are absent,
    [transform_gcp_buckets] does not raise; it returns one record per
    item, each record has every normalized key, and the key fed by an
    absent optional field holds the default ([None], or the empty list for
    [labels]). *)
Theorem transform_gcp_buckets_defaults
    (bucket_res : list (string * pyval)) (items : list pyval) :
  py_get (VDict bucket_res) "items" (VList []) = Ok (VList items) →
  Forall (λ b, bucket_item b = true) items →
  ∃ records,
    transform_gcp_buckets (VDict bucket_res) = Ok records
    ∧ Forall2 (λ b r,
         dom r = normalized_keys
         ∧ ∀ f k dflt, (f, k, dflt) ∈ optional_fields →
                       field_absent f b → r !! k = Some dflt)
        items records.
Proof.
  intros Hitems Hall. unfold transform_gcp_buckets. rewrite Hitems.
  cbn [mbind result_bind py_iter].
  apply for_each_Forall2. eapply Forall_impl; [exact Hall|].
  intros b Hb. destruct (transform_gcp_bucket_item b Hb) as (r & E & D & F).
  eauto.
Qed.

Lemma transform_gcp_buckets_defaults_witness :
  ∃ records,
    transform_gcp_buckets
      (VDict [("items",
               VList [VDict [("id", VStr "b1"); ("projectNumber", VStr "p1")]])])
    = Ok records
    ∧ Forall2 (λ b r,
         dom r = normalized_keys
         ∧ ∀ f k dflt, (f, k, dflt) ∈ optional_fields →
                       field_absent f b → r !! k = Some dflt)
        [VDict [("id", VStr "b1"); ("projectNumber", VStr "p1")]] records.
Proof.
  apply (transform_gcp_buckets_defaults
           [("items",
             VList [VDict [("id", VStr "b1"); ("projectNumber", VStr "p1")]])]
           [VDict [("id", VStr "b1"); ("projectNumber", VStr "p1")]]).
  - reflexivity.
  - repeat constructor.
Defined.

(** ** The Okta orchestrator *)

Section Okta.
Context `{Collaborators}.

Lemma invoke_run c w :
  invoke c w
  = (after_call c (perform c (db w, sync_state w)).1 w,
     (perform c (db w, sync_state w)).2).
Proof.
  unfold invoke, after_call.
  by destruct (perform c (db w, sync_state w)) as [[g s] r].
Qed.

(** A stage that raises ends the sequence: the calls after it are not
    made, and the world is the one the failing call left. *)
Lemma invoke_all_abort cs1 c cs2 w w1 e :
  invoke_all cs1 w = (w1, Ok tt) →
  (perform c (db w1, sync_state w1)).2 = Raise e →
  invoke_all (cs1 ++ c :: cs2) w
  = (after_call c (perform c (db w1, sync_state w1)).1 w1, Raise e).
Proof.
  revert w. induction cs1 as [|c1 cs1 IH]; intros w E1 E2.
  - injection E1 as ->. simpl. unfold mbind, M_bind.
    rewrite invoke_run, E2. done.
  - simpl in *. unfold mbind, M_bind in *.
    destruct (invoke c1 w) as [w' [[]|e']]; [|done]. by apply IH.
Qed.

Lemma start_okta_ingestion_prologue config w :
  truthy (okta_api_key config) = true →
  start_okta_ingestion config w
  = match okta_prologue config w with
    | (w1, Ok _) =>
        (try_except
           (invoke (sync_roles (okta_org_id config) (update_tag config)
                      (okta_api_key config)))
           (λ ex, match ex with
                  | OktaError error_code =>
                      Some (
                        logger WARNING
                          "Unable to pull admin roles got {okta_error}";;
                        if decide (error_code = "E0000006") then
                          logger WARNING
                            "Unable to sync admin roles - api token needs admin rights to pull admin roles data"
                        else mret tt)
                  | _ => None
                  end);;
         _cleanup_okta_organizations (okta_job_parameters config)) w1
    | (w1, Raise e) => (w1, Raise e)
    end.
Proof.
  intros T. unfold start_okta_ingestion, okta_prologue. rewrite T.
  cbn [negb]. unfold stages_before_roles, invoke_all.
  unfold mbind, M_bind.
  destruct (logger _ _ w) as [w0 [[]|?]]; [|done].
  destruct (new_sync_state w0) as [wa [[]|?]]; [|done].
  repeat match goal with
         | |- context [invoke ?c ?w] =>
             is_var w; destruct (invoke c w) as [? [[]|?]]; [|done]
         end.
  done.
Qed.
End Okta.

(** C9. With a missing or falsy [okta_api_key], [start_okta_ingestion]
    logs one warning and returns: no stage is run, the cleanup job is not
    called, and the graph, the sync state and the query count are those of
    the initial world. *)
Theorem start_okta_ingestion_without_credentials `{Collaborators}
    (config : config) (w : world) :
  truthy (okta_api_key config) = false →
  start_okta_ingestion config w
  = (with_log w
       [Logged WARNING
          "No valid Okta credentials could be found. Exiting Okta sync stage."],
     Ok tt).
Proof. intros T. unfold start_okta_ingestion. by rewrite T. Qed.

Lemma start_okta_ingestion_without_credentials_witness :
  db (start_okta_ingestion (H := users_failing)
        (Config VNone (VStr "org") 100 VNone) empty_world).1
  = db empty_world
  ∧ (start_okta_ingestion (H := users_failing)
       (Config (VStr EmptyString) (VStr "org") 100 VNone) empty_world).2
    = Ok tt.
Proof.
  split.
  - rewrite (start_okta_ingestion_without_credentials (H := users_failing)
               (Config VNone (VStr "org") 100 VNone) empty_world eq_refl).
    reflexivity.
  - rewrite (start_okta_ingestion_without_credentials (H := users_failing)
               (Config (VStr EmptyString) (VStr "org") 100 VNone)
               empty_world eq_refl).
    reflexivity.
Defined.

(** C8 as stated fails: an [OktaError] of the roles stage that is not the
    insufficient-privilege error E0000006 (here E0000047, rate limit) does
    not abort the run either; the run goes on to the cleanup job and
    returns normally. *)
Lemma roles_failure_is_never_fatal_counterexample :
  let H := roles_failing "E0000047" in
  let run := start_okta_ingestion okta_config empty_world in
  (perform (sync_roles (VStr "org") 100 (VStr "token"))
     (Graph [] [], VDict [])).2 = Raise (OktaError "E0000047")
  ∧ "E0000047" ≠ "E0000006"
  ∧ run.2 = Ok tt
  ∧ last (log run.1)
    = Some (Called (run_cleanup_job "okta_import_cleanup.json"
                      (okta_job_parameters okta_config))).
Proof. repeat split; try reflexivity. discriminate. Qed.

(** C8 (amended). With credentials present:
    - a stage before the roles stage that raises aborts the run at once,
      with the world that stage left behind;
    - every [OktaError] of the roles stage, whatever its error code, is
      caught and logged as a warning (E0000006 gets a second warning) and
      the run goes on to the cleanup job;
    - any other exception of the roles stage aborts the run, the cleanup
      job is not called and what was written so far stays. *)
Theorem start_okta_ingestion_failure_policy `{Collaborators}
    (config : config) (w : world) :
  truthy (okta_api_key config) = true →
  let roles :=
    sync_roles (okta_org_id config) (update_tag config) (okta_api_key config) in
  (∀ w1 e, okta_prologue config w = (w1, Raise e) →
           start_okta_ingestion config w = (w1, Raise e))
  ∧ (∀ w0 cs1 c cs2 w1 e,
        stages_before_roles config = cs1 ++ c :: cs2 →
        invoke_all cs1 w0 = (w1, Ok tt) →
        (perform c (db w1, sync_state w1)).2 = Raise e →
        invoke_all (stages_before_roles config) w0
        = (after_call c (perform c (db w1, sync_state w1)).1 w1, Raise e))
  ∧ (∀ w1, okta_prologue config w = (w1, Ok tt) →
       let w2 := after_call roles (perform roles (db w1, sync_state w1)).1 w1 in
       match (perform roles (db w1, sync_state w1)).2 with
       | Ok _ =>
           start_okta_ingestion config w
           = _cleanup_okta_organizations (okta_job_parameters config) w2
       | Raise (OktaError error_code) =>
           start_okta_ingestion config w
           = _cleanup_okta_organizations (okta_job_parameters config)
               (with_log w2
                  (Logged WARNING "Unable to pull admin roles got {okta_error}"
                   :: if decide (error_code = "E0000006")
                      then [Logged WARNING
                              "Unable to sync admin roles - api token needs admin rights to pull admin roles data"]
                      else []))
       | Raise e => start_okta_ingestion config w = (w2, Raise e)
       end).
Proof.
  intros T roles. split; [|split].
  - intros w1 e E. rewrite (start_okta_ingestion_prologue _ _ T), E. done.
  - intros w0 cs1 c cs2 w1 e -> E1 E2. by apply invoke_all_abort.
  - intros w1 E w2. rewrite (start_okta_ingestion_prologue _ _ T), E.
    unfold mbind, M_bind, try_except. rewrite invoke_run. fold roles.
    subst w2.
    destruct (perform roles (db w1, sync_state w1)) as [s2 [[]|e]];
      cbn [fst snd]; [done|].
    destruct e; try done.
    unfold logger at 1. cbn [fst snd db sync_state ticks log].
    case_decide.
    + unfold logger, with_log. cbn [db sync_state ticks log].
      by rewrite <- app_assoc.
    + unfold mret, M_ret, with_log. done.
Qed.

Lemma start_okta_ingestion_failure_policy_witness :
  (start_okta_ingestion (H := roles_failing "E0000006")
     okta_config empty_world).2 = Ok tt
  ∧ start_okta_ingestion (H := users_failing) okta_config empty_world
    = (World (Graph [Node ["OktaUser"] ∅] []) (VDict []) 0
         [ Logged DEBUG "Starting Okta sync on {config.okta_org_id}";
           Called (create_okta_organization (VStr "org") 100);
           Called (sync_okta_users (VStr "org") 100 (VStr "token")) ],
       Raise (Exception "ConnectionError")).
Proof.
  split.
  - pose proof (start_okta_ingestion_failure_policy
                  (H := roles_failing "E0000006") okta_config empty_world
                  eq_refl) as (_ & _ & P).
    specialize (P (World (Graph [] []) (VDict []) 0
                     (Logged DEBUG "Starting Okta sync on {config.okta_org_id}"
                      :: (Called <$> stages_before_roles okta_config)))).
    assert (E : okta_prologue (H := roles_failing "E0000006")
                  okta_config empty_world
                = (World (Graph [] []) (VDict []) 0
                     (Logged DEBUG "Starting Okta sync on {config.okta_org_id}"
                      :: (Called <$> stages_before_roles okta_config)),
                   Ok tt)) by (vm_compute; reflexivity).
    specialize (P E). cbv zeta in P. cbn [perform roles_failing snd] in P.
    rewrite P. vm_compute. reflexivity.
  - pose proof (start_okta_ingestion_failure_policy
                  (H := users_failing) okta_config empty_world
                  eq_refl) as (P & _ & _).
    apply P. vm_compute. reflexivity.
Defined.

(** ** The graph loader *)

(** *** Positions of matches *)

Section Positions.
Context {A : Type}.
Implicit Types (p : A → bool) (l : list A).

Lemma elem_of_positions p j l i :
  i ∈ positions p j l ↔ ∃ x, j ≤ i ∧ l !! (i - j) = Some x ∧ p x = true.
Proof.
  revert j. induction l as [|y l IH]; intros j; simpl.
  - split; [by intros ?%elem_of_nil | by intros (? & _ & ? & _)].
  - rewrite elem_of_app, IH. split.
    + intros [Hi | (x & Hj & Hx & Hp)].
      * destruct (p y) eqn:Hy; [|by apply elem_of_nil in Hi].
        apply list_elem_of_singleton in Hi as ->. exists y.
        by rewrite Nat.sub_diag.
      * exists x. split; [lia|]. split; [|done].
        by replace (i - j) with (S (i - S j)) by lia.
    + intros (x & Hj & Hx & Hp). destruct (decide (i = j)) as [->|Hne].
      * left. rewrite Nat.sub_diag in Hx. simpl in Hx. injection Hx as ->.
        rewrite Hp. by apply list_elem_of_singleton.
      * right. exists x. split; [lia|]. split; [|done].
        by replace (i - j) with (S (i - S j)) in Hx by lia.
Qed.

Lemma positions_app p j l1 l2 :
  positions p j (l1 ++ l2)
  = positions p j l1 ++ positions p (j + length l1) l2.
Proof.
  revert j. induction l1 as [|x l1 IH]; intros j; simpl.
  - by rewrite Nat.add_0_r.
  - rewrite IH, <- app_assoc. do 3 f_equal. lia.
Qed.

Lemma positions_nil p j l : positions p j l = [] ↔ existsb p l = false.
Proof.
  revert j. induction l as [|x l IH]; intros j; simpl; [done|].
  destruct (p x); simpl; [split; discriminate | apply IH].
Qed.

Lemma positions_ext p p' j l :
  (∀ x, x ∈ l → p x = p' x) → positions p j l = positions p' j l.
Proof.
  revert j. induction l as [|x l IH]; intros j Hpp; simpl; [done|].
  rewrite (Hpp x) by apply list_elem_of_here.
  rewrite IH; [done|]. intros y Hy. apply Hpp. by apply list_elem_of_further.
Qed.

Lemma existsb_ext p p' l :
  (∀ x, x ∈ l → p x = p' x) → existsb p l = existsb p' l.
Proof.
  induction l as [|x l IH]; intros Hpp; simpl; [done|].
  rewrite (Hpp x) by apply list_elem_of_here.
  rewrite IH; [done|]. intros y Hy. apply Hpp. by apply list_elem_of_further.
Qed.

Lemma existsb_true p l : existsb p l = true ↔ ∃ x, x ∈ l ∧ p x = true.
Proof.
  rewrite existsb_exists. by setoid_rewrite list_elem_of_In.
Qed.

Lemma mem_positions p l i :
  bool_decide (i ∈ positions p 0 l) = from_option p false (l !! i).
Proof.
  case_bool_decide as Hi.
  - apply elem_of_positions in Hi as (x & _ & Hx & Hp).
    rewrite Nat.sub_0_r in Hx. by rewrite Hx.
  - destruct (l !! i) as [x|] eqn:Hx; simpl; [|done].
    destruct (p x) eqn:Hp; [|done]. exfalso. apply Hi.
    apply elem_of_positions. exists x. rewrite Nat.sub_0_r. split; [lia|done].
Qed.

(** Assigning by bound position is assigning by pattern. *)
Lemma imap_positions p (f : A → A) l :
  imap (λ i x, if bool_decide (i ∈ positions p 0 l) then f x else x) l
  = (λ x, if p x then f x else x) <$> l.
Proof.
  apply list_eq. intros i. rewrite list_lookup_imap, list_lookup_fmap.
  destruct (l !! i) as [x|] eqn:Hx; simpl; [|done].
  by rewrite mem_positions, Hx.
Qed.

Lemma add_missing_app p x l :
  add_missing p x l = l ++ (if existsb p l then [] else [x]).
Proof. unfold add_missing. destruct (existsb p l); by rewrite ?app_nil_r. Qed.

Lemma existsb_add_missing p x l :
  p x = true → existsb p (add_missing p x l) = true.
Proof.
  intros Hp. unfold add_missing. destruct (existsb p l) eqn:E; [done|].
  rewrite existsb_app. simpl. by rewrite Hp, orb_true_r.
Qed.
End Positions.

Lemma positions_fmap {A B} (f : A → B) (p : B → bool) j l :
  positions p j (f <$> l) = positions (p ∘ f) j l.
Proof.
  revert j. induction l as [|x l IH]; intros j; simpl; [done|]. by rewrite IH.
Qed.

Lemma existsb_fmap {A B} (f : A → B) (p : B → bool) l :
  existsb p (f <$> l) = existsb (p ∘ f) l.
Proof. induction l as [|x l IH]; simpl; [done|]. f_equal. exact IH. Qed.

(** *** Assignments *)

Lemma lookup_set_prop k v (m : gmap string pyval) k' :
  set_prop k v m !! k' = if decide (k = k') then stored v else m !! k'.
Proof.
  unfold set_prop. case_decide as Hk.
  - subst k'. destruct v; simpl;
      by rewrite ?lookup_delete_eq, ?lookup_insert_eq.
  - destruct v; by rewrite ?lookup_delete_ne, ?lookup_insert_ne.
Qed.

Lemma lookup_set_props kvs (m : gmap string pyval) k :
  set_props kvs m !! k = from_option stored (m !! k) (assigned k kvs).
Proof.
  unfold set_props. revert m. induction kvs as [|[k' v] kvs IH]; intros m.
  - done.
  - simpl. rewrite IH. destruct (assigned k kvs); [done|]. simpl.
    rewrite lookup_set_prop. by case_decide.
Qed.

Lemma assigned_None k kvs : k ∉ kvs.*1 → assigned k kvs = None.
Proof.
  induction kvs as [|[k' v] kvs IH]; simpl; [done|].
  rewrite not_elem_of_cons. intros [Hne Hk]. rewrite IH by done.
  by rewrite decide_False.
Qed.

Lemma assigned_is_Some k kvs : k ∈ kvs.*1 → is_Some (assigned k kvs).
Proof.
  induction kvs as [|[k' v] kvs IH]; simpl.
  - by intros ?%elem_of_nil.
  - intros [Hkk|Hk]%elem_of_cons.
    + subst k'. destruct (assigned k kvs); [done|]. by rewrite decide_True.
    + destruct (IH Hk) as [v' ->]. done.
Qed.

Lemma lookup_set_props_other kvs (m : gmap string pyval) k :
  k ∉ kvs.*1 → set_props kvs m !! k = m !! k.
Proof. intros Hk. by rewrite lookup_set_props, assigned_None. Qed.

(** Assignments forget whatever was stored under their keys. *)
Lemma set_props_absorb kvs (m m' : gmap string pyval) :
  (∀ k, k ∉ kvs.*1 → m !! k = m' !! k) →
  set_props kvs m = set_props kvs m'.
Proof.
  intros Hmm. apply map_eq. intros k. rewrite !lookup_set_props.
  destruct (decide (k ∈ kvs.*1)) as [Hk|Hk].
  - by destruct (assigned_is_Some _ _ Hk) as [v ->].
  - rewrite assigned_None by done. simpl. auto.
Qed.

Lemma set_props_agree kvs (m m' : gmap string pyval) k :
  m !! k = m' !! k → set_props kvs m !! k = set_props kvs m' !! k.
Proof. intros E. by rewrite !lookup_set_props, E. Qed.

(** *** What the patterns see is never assigned *)

Lemma key_view_set_node kvs n :
  "projectnumber" ∉ kvs.*1 → "id" ∉ kvs.*1 →
  key_view (set_node kvs n) = key_view n.
Proof.
  intros H1 H2. unfold key_view, set_node. simpl.
  by rewrite !lookup_set_props_other.
Qed.

Lemma bucket_assignments_keys q :
  (bucket_assignments q).*1
  = [ "self_link"; "project_number"; "kind"; "location"; "location_type";
      "labels"; "meta_generation"; "storage_class"; "time_created";
      "retention_period"; "iam_config_bucket_policy_only"; "owner_entity";
      "owner_entity_id"; "lastupdated"; "versioning_enabled"; "log_bucket";
      "requester_pays"; "default_kms_key_name" ].
Proof. reflexivity. Qed.

Lemma is_project_view q n n' :
  key_view n = key_view n' → is_project q n = is_project q n'.
Proof.
  unfold key_view, is_project, node_matches. by intros [= -> -> _].
Qed.

Lemma is_bucket_view q n n' :
  key_view n = key_view n' → is_bucket q n = is_bucket q n'.
Proof.
  unfold key_view, is_bucket, node_matches. by intros [= -> _ ->].
Qed.

Lemma key_view_stamp_project t n :
  key_view (set_node [("lastupdated", VInt t)] n) = key_view n.
Proof.
  apply key_view_set_node; rewrite list_elem_of_In; simpl;
    intuition discriminate.
Qed.

Lemma key_view_stamp_bucket q n :
  key_view (set_node (bucket_assignments q) n) = key_view n.
Proof.
  apply key_view_set_node; rewrite bucket_assignments_keys;
    rewrite list_elem_of_In; simpl; intuition discriminate.
Qed.

Lemma key_view_upd_node q n : key_view (upd_node q n) = key_view n.
Proof.
  unfold upd_node.
  destruct (is_project q n); destruct (is_bucket q _);
    by rewrite ?key_view_stamp_bucket, ?key_view_stamp_project.
Qed.

Lemma is_project_upd_node q q' n :
  is_project q (upd_node q' n) = is_project q n.
Proof. apply is_project_view, key_view_upd_node. Qed.

Lemma is_bucket_upd_node q q' n :
  is_bucket q (upd_node q' n) = is_bucket q n.
Proof. apply is_bucket_view, key_view_upd_node. Qed.

(** *** Created nodes match their own pattern and no other *)

Lemma is_project_new_project now q : is_project q (new_project now q) = true.
Proof.
  unfold is_project, node_matches, new_project. cbn [labels props].
  rewrite lookup_set_props_other, lookup_singleton_eq.
  - rewrite !bool_decide_eq_true_2; [done..|]. apply list_elem_of_here.
  - rewrite list_elem_of_In; simpl; intuition discriminate.
Qed.

Lemma is_bucket_new_bucket now q : is_bucket q (new_bucket now q) = true.
Proof.
  unfold is_bucket, node_matches, new_bucket. cbn [labels props].
  rewrite lookup_set_props_other, lookup_singleton_eq.
  - rewrite !bool_decide_eq_true_2; [done..|]. apply list_elem_of_here.
  - rewrite list_elem_of_In; simpl; intuition discriminate.
Qed.

Lemma is_project_new_bucket now q q' : is_project q (new_bucket now q') = false.
Proof.
  unfold is_project, node_matches, new_bucket. cbn [labels props].
  rewrite bool_decide_eq_false_2; [done|].
  rewrite list_elem_of_In; simpl; intuition discriminate.
Qed.

Lemma is_bucket_new_project now q q' : is_bucket q (new_project now q') = false.
Proof.
  unfold is_bucket, node_matches, new_project. cbn [labels props].
  rewrite bool_decide_eq_false_2; [done|].
  rewrite list_elem_of_In; simpl; intuition discriminate.
Qed.

(** A new project matches the project pattern of [q] only if [q] merges on
    the same project number; likewise for buckets. *)
Lemma is_project_new_project_inv now q q' :
  is_project q (new_project now q') = true →
  ProjectNumber q = ProjectNumber q'.
Proof.
  unfold is_project, node_matches, new_project. cbn [labels props].
  rewrite andb_true_iff, !bool_decide_eq_true. intros [_ E].
  rewrite lookup_set_props_other, lookup_singleton_eq in E; [congruence|].
  rewrite list_elem_of_In; simpl; intuition discriminate.
Qed.

Lemma is_bucket_new_bucket_inv now q q' :
  is_bucket q (new_bucket now q') = true → BucketId q = BucketId q'.
Proof.
  unfold is_bucket, node_matches, new_bucket. cbn [labels props].
  rewrite andb_true_iff, !bool_decide_eq_true. intros [_ E].
  rewrite lookup_set_props_other, lookup_singleton_eq in E; [congruence|].
  rewrite list_elem_of_In; simpl; intuition discriminate.
Qed.

Lemma is_project_same_key q q' n :
  ProjectNumber q = ProjectNumber q' → is_project q n = is_project q' n.
Proof. unfold is_project. by intros ->. Qed.

Lemma is_bucket_same_key q q' n :
  BucketId q = BucketId q' → is_bucket q n = is_bucket q' n.
Proof. unfold is_bucket. by intros ->. Qed.

(** *** [MERGE] and [SET] by pattern *)

Lemma merge_node_spec lbl key val oc ns :
  let p := node_matches lbl key val in
  let new := Node [lbl] (set_props oc {[key := val]}) in
  p new = true →
  merge_node lbl key val oc ns
  = (add_missing p new ns, positions p 0 (add_missing p new ns)).
Proof.
  intros p new Hnew. unfold merge_node, add_missing. fold p. fold new.
  destruct (existsb p ns) eqn:E.
  - destruct (positions p 0 ns) eqn:Ep; [|done].
    apply positions_nil in Ep. congruence.
  - apply positions_nil with (j := 0) in E as Ep. rewrite Ep.
    rewrite positions_app, Ep. simpl. by rewrite Hnew.
Qed.

Lemma set_nodes_positions p kvs ns :
  set_nodes (positions p 0 ns) kvs ns
  = (λ n, if p n then set_node kvs n else n) <$> ns.
Proof. apply imap_positions. Qed.

Lemma set_edges_positions p kvs es :
  set_edges (positions p 0 es) kvs es
  = (λ e, if p e then set_edge kvs e else e) <$> es.
Proof. apply imap_positions. Qed.

Lemma add_missing_fmap {A} (p : A → bool) (f : A → A) x l :
  (∀ y, p (f y) = p y) → f x = x →
  add_missing p x (f <$> l) = f <$> add_missing p x l.
Proof.
  intros Hp Hx. unfold add_missing. rewrite existsb_fmap.
  rewrite (existsb_ext (p ∘ f) p) by (intros; apply Hp).
  destruct (existsb p l); [done|]. by rewrite fmap_app; simpl; rewrite Hx.
Qed.

Lemma imap_member {A} (ids : list nat) (p : A → bool) (f : A → A) l :
  (∀ i x, l !! i = Some x → i ∈ ids ↔ p x = true) →
  imap (λ i x, if bool_decide (i ∈ ids) then f x else x) l
  = (λ x, if p x then f x else x) <$> l.
Proof.
  intros Hids. apply list_eq. intros i.
  rewrite list_lookup_imap, list_lookup_fmap.
  destruct (l !! i) as [x|] eqn:Hx; simpl; [|done]. f_equal.
  specialize (Hids i x Hx). case_bool_decide as Hi.
  - by rewrite (proj1 Hids Hi).
  - destruct (p x); [|done]. exfalso. by apply Hi, Hids.
Qed.

Lemma edge_matches_new_resource now s t s' t' :
  edge_matches s' t' "RESOURCE" (new_resource now s t) = true ↔ s' = s ∧ t' = t.
Proof.
  unfold edge_matches, new_resource. simpl.
  rewrite !andb_true_iff, !bool_decide_eq_true. intuition congruence.
Qed.

Lemma merge_edge_spec now s t es :
  let m := edge_matches s t "RESOURCE" in
  merge_edge s t "RESOURCE" [("firstseen", VInt now)] es
  = (add_missing m (new_resource now s t) es,
     positions m 0 (add_missing m (new_resource now s t) es)).
Proof.
  intros m. unfold merge_edge, add_missing. fold m.
  fold (new_resource now s t).
  destruct (existsb m es) eqn:E.
  - destruct (positions m 0 es) eqn:Ep; [|done].
    apply positions_nil in Ep. congruence.
  - apply positions_nil with (j := 0) in E as Ep. rewrite Ep.
    assert (Hm : m (new_resource now s t) = true)
      by (by apply edge_matches_new_resource).
    rewrite positions_app, Ep. simpl. by rewrite Hm.
Qed.

(** The relationship clause only appends, and what it appends are new
    relationships of its rows. *)
Lemma create_edges_app now rws es :
  ∃ tail, create_edges now rws es = es ++ tail
          ∧ ∀ e, e ∈ tail → ∃ s t, (s, t) ∈ rws ∧ e = new_resource now s t.
Proof.
  revert es. induction rws as [|[s t] rws IH]; intros es; simpl.
  - exists []. split; [by rewrite app_nil_r | by intros ? ?%elem_of_nil].
  - destruct (IH (add_missing (edge_matches s t "RESOURCE")
                    (new_resource now s t) es)) as (tail & -> & Htail).
    rewrite add_missing_app, <- app_assoc. eexists. split; [done|].
    intros e [He|He]%elem_of_app.
    + destruct (existsb _ es); [by apply elem_of_nil in He|].
      apply list_elem_of_singleton in He as ->.
      exists s, t. split; [apply list_elem_of_here | done].
    + destruct (Htail e He) as (s' & t' & Hin & ->).
      exists s', t'. split; [by apply list_elem_of_further | done].
Qed.

Lemma merge_edges_spec now rws es :
  (merge_edges rws "RESOURCE" [("firstseen", VInt now)] es).1
  = create_edges now rws es
  ∧ ∀ i e, create_edges now rws es !! i = Some e →
           i ∈ (merge_edges rws "RESOURCE" [("firstseen", VInt now)] es).2
           ↔ row_matches rws e = true.
Proof.
  revert es. induction rws as [|[s t] rws IH]; intros es.
  - simpl. split; [done|]. intros i e _. split; [by intros ?%elem_of_nil|done].
  - cbn [merge_edges create_edges]. rewrite merge_edge_spec.
    set (m := edge_matches s t "RESOURCE").
    set (es1 := add_missing m (new_resource now s t) es).
    destruct (IH es1) as [IH1 IH2].
    destruct (merge_edges rws "RESOURCE" [("firstseen", VInt now)] es1)
      as [es2 ids2] eqn:E2. simpl in IH1, IH2. subst es2. simpl.
    split; [done|]. intros i e Hie.
    rewrite elem_of_app, (IH2 i e Hie). unfold row_matches. simpl. fold m.
    rewrite orb_true_iff. split.
    + intros [Hi | Hr]; [|by right].
      apply elem_of_positions in Hi as (e' & _ & He' & Hm).
      rewrite Nat.sub_0_r in He'.
      destruct (create_edges_app now rws es1) as (tail & Etail & _).
      rewrite Etail, lookup_app_l in Hie by (by eapply lookup_lt_Some).
      left. congruence.
    + intros [Hm | Hr]; [|by right].
      destruct (create_edges_app now rws es1) as (tail & Etail & Htail).
      rewrite Etail in Hie. apply lookup_app_Some in Hie as [Hie | [_ Hie]].
      * left. apply elem_of_positions. exists e. rewrite Nat.sub_0_r.
        split; [lia|done].
      * right. apply list_elem_of_lookup_2 in Hie.
        destruct (Htail e Hie) as (s' & t' & Hin & ->).
        apply existsb_true. exists (s', t'). split; [done|].
        by apply edge_matches_new_resource.
Qed.

Lemma row_matches_prod ps bs e :
  row_matches (list_prod ps bs) e
  = bool_decide (rtype e = "RESOURCE")
    && bool_decide (src e ∈ ps) && bool_decide (tgt e ∈ bs).
Proof.
  apply eq_true_iff_eq. unfold row_matches.
  rewrite existsb_exists, !andb_true_iff, !bool_decide_eq_true.
  rewrite !list_elem_of_In. split.
  - intros ([s t] & Hin%in_prod_iff & Hm). unfold edge_matches in Hm.
    simpl in Hm. rewrite !andb_true_iff, !bool_decide_eq_true in Hm.
    destruct Hm as [[<- <-] ?], Hin. auto.
  - intros [[Hty Hs] Ht]. exists (src e, tgt e). split.
    + by apply in_prod_iff.
    + unfold edge_matches. simpl.
      by rewrite !andb_true_iff, !bool_decide_eq_true.
Qed.

Lemma row_matches_rows q ns e : row_matches (rows q ns) e = is_resource q ns e.
Proof.
  unfold rows, is_resource. by rewrite row_matches_prod, !mem_positions.
Qed.

(** *** The query is creation followed by stamping *)

Lemma stamp_project_not_project q t n :
  is_project q n = false →
  (if is_project q n then set_node [("lastupdated", VInt t)] n else n) = n.
Proof. by intros ->. Qed.

Lemma is_bucket_stamp_project q q' t n :
  is_bucket q
    (if is_project q' n then set_node [("lastupdated", VInt t)] n else n)
  = is_bucket q n.
Proof.
  destruct (is_project q' n); [|done].
  apply is_bucket_view, key_view_stamp_project.
Qed.

Lemma positions_create_nodes_project now q ns :
  positions (is_project q) 0 (create_nodes now q ns)
  = positions (is_project q) 0
      (add_missing (is_project q) (new_project now q) ns).
Proof.
  unfold create_nodes. rewrite (add_missing_app (is_bucket q)), positions_app.
  destruct (existsb (is_bucket q) _); cbn [positions].
  - by rewrite app_nil_r.
  - by rewrite is_project_new_bucket, !app_nil_r.
Qed.

Theorem ingest_stamp_create now q g :
  ingest now q g = stamp q (create_missing now q g).
Proof.
  unfold ingest.
  pose proof (merge_node_spec "GCPProject" "projectnumber" (ProjectNumber q)
                [("firstseen", VInt now)] (nodes g)
                (is_project_new_project now q)) as E1.
  cbv zeta in E1.
  change (node_matches "GCPProject" "projectnumber" (ProjectNumber q))
    with (is_project q) in E1.
  change (Node _ _) with (new_project now q) in E1.
  rewrite E1. clear E1. cbv beta iota zeta.
  set (ns1 := add_missing (is_project q) (new_project now q) (nodes g)).
  rewrite set_nodes_positions.
  set (stampP := λ n, if is_project q n
                      then set_node [("lastupdated", VInt (UpdateTag q))] n
                      else n).
  pose proof (merge_node_spec "GCPBucket" "id" (BucketId q)
                [("firstseen", VInt now); ("bucket_id", BucketId q)]
                (stampP <$> ns1) (is_bucket_new_bucket now q)) as E2.
  cbv zeta in E2.
  change (node_matches "GCPBucket" "id" (BucketId q))
    with (is_bucket q) in E2.
  change (Node _ _) with (new_bucket now q) in E2.
  rewrite E2. clear E2. cbv beta iota zeta.
  assert (Hns3 : add_missing (is_bucket q) (new_bucket now q) (stampP <$> ns1)
                 = stampP <$> create_nodes now q (nodes g)).
  { apply add_missing_fmap.
    - intros n. apply is_bucket_stamp_project.
    - unfold stampP. by rewrite is_project_new_bucket. }
  rewrite Hns3. rewrite set_nodes_positions.
  assert (Hrows : list_prod (positions (is_project q) 0 ns1)
                    (positions (is_bucket q) 0
                       (stampP <$> create_nodes now q (nodes g)))
                  = rows q (create_nodes now q (nodes g))).
  { unfold rows. rewrite positions_create_nodes_project. fold ns1. f_equal.
    rewrite positions_fmap. apply positions_ext. intros n _.
    apply is_bucket_stamp_project. }
  rewrite Hrows.
  destruct (merge_edges_spec now (rows q (create_nodes now q (nodes g)))
              (edges g)) as [Hes Hids].
  destruct (merge_edges _ "RESOURCE" _ (edges g)) as [es rs].
  simpl in Hes, Hids. subst es.
  unfold stamp, create_missing. cbn [nodes edges]. f_equal.
  - rewrite <- list_fmap_compose. apply list_fmap_ext. intros _ n _.
    reflexivity.
  - unfold set_edges.
    rewrite (imap_member rs (is_resource q (create_nodes now q (nodes g)))).
    + done.
    + intros i e Hie. rewrite (Hids i e Hie). by rewrite row_matches_rows.
Qed.

(** *** Covered queries create nothing *)

Lemma existsb_app_l {A} (p : A → bool) l tail :
  existsb p l = true → existsb p (l ++ tail) = true.
Proof. intros E. by rewrite existsb_app, E. Qed.

Lemma existsb_add_missing_mono {A} (p p' : A → bool) x l :
  existsb p l = true → existsb p (add_missing p' x l) = true.
Proof. intros E. rewrite add_missing_app. by apply existsb_app_l. Qed.

Lemma add_missing_present {A} (p : A → bool) x l :
  existsb p l = true → add_missing p x l = l.
Proof. unfold add_missing. by intros ->. Qed.

Lemma create_edges_present now rws es :
  (∀ s t, (s, t) ∈ rws → existsb (edge_matches s t "RESOURCE") es = true) →
  create_edges now rws es = es.
Proof.
  induction rws as [|[s t] rws IH]; intros Hall; simpl; [done|].
  rewrite add_missing_present by apply Hall, list_elem_of_here.
  apply IH. intros s' t' Hin. by apply Hall, list_elem_of_further.
Qed.

Lemma create_missing_covered now q g :
  covered q g → create_missing now q g = g.
Proof.
  intros (Hp & Hb & He). unfold create_missing, create_nodes.
  rewrite (add_missing_present (is_project q)) by done.
  rewrite (add_missing_present (is_bucket q)) by done.
  rewrite create_edges_present by done. by destruct g.
Qed.

Lemma create_edges_covers now rws es s t :
  (s, t) ∈ rws →
  existsb (edge_matches s t "RESOURCE") (create_edges now rws es) = true.
Proof.
  revert es. induction rws as [|[s' t'] rws IH]; intros es Hin.
  - by apply elem_of_nil in Hin.
  - simpl. apply elem_of_cons in Hin as [[= -> ->]|Hin]; [|by apply IH].
    destruct (create_edges_app now rws
                (add_missing (edge_matches s' t' "RESOURCE")
                   (new_resource now s' t') es)) as (tail & -> & _).
    apply existsb_app_l, existsb_add_missing.
    by apply edge_matches_new_resource.
Qed.

Lemma covered_create_missing now q g : covered q (create_missing now q g).
Proof.
  unfold covered, create_missing, create_nodes. cbn [nodes edges].
  split; [|split].
  - apply existsb_add_missing_mono, existsb_add_missing,
      is_project_new_project.
  - apply existsb_add_missing, is_bucket_new_bucket.
  - intros s t Hin. by apply create_edges_covers.
Qed.

(** *** Stamping keeps every pattern's matches *)

Lemma positions_upd_nodes_project q q' ns :
  positions (is_project q) 0 (upd_node q' <$> ns)
  = positions (is_project q) 0 ns.
Proof.
  rewrite positions_fmap. apply positions_ext. intros n _.
  apply is_project_upd_node.
Qed.

Lemma positions_upd_nodes_bucket q q' ns :
  positions (is_bucket q) 0 (upd_node q' <$> ns)
  = positions (is_bucket q) 0 ns.
Proof.
  rewrite positions_fmap. apply positions_ext. intros n _.
  apply is_bucket_upd_node.
Qed.

Lemma rows_upd_nodes q q' ns : rows q (upd_node q' <$> ns) = rows q ns.
Proof.
  unfold rows.
  by rewrite positions_upd_nodes_project, positions_upd_nodes_bucket.
Qed.

Lemma is_resource_upd_nodes q q' ns e :
  is_resource q (upd_node q' <$> ns) e = is_resource q ns e.
Proof.
  by rewrite <- !row_matches_rows, rows_upd_nodes.
Qed.

Lemma edge_matches_upd_edge s t ty q ns e :
  edge_matches s t ty (upd_edge q ns e) = edge_matches s t ty e.
Proof. unfold upd_edge. by destruct (is_resource q ns e). Qed.

Lemma is_resource_upd_edge q ns q' ns' e :
  is_resource q ns (upd_edge q' ns' e) = is_resource q ns e.
Proof. unfold upd_edge. by destruct (is_resource q' ns' e). Qed.

Lemma existsb_upd_nodes_project q q' ns :
  existsb (is_project q) (upd_node q' <$> ns) = existsb (is_project q) ns.
Proof.
  rewrite existsb_fmap. apply existsb_ext. intros n _.
  apply is_project_upd_node.
Qed.

Lemma existsb_upd_nodes_bucket q q' ns :
  existsb (is_bucket q) (upd_node q' <$> ns) = existsb (is_bucket q) ns.
Proof.
  rewrite existsb_fmap. apply existsb_ext. intros n _.
  apply is_bucket_upd_node.
Qed.

Lemma existsb_upd_edges s t ty q ns es :
  existsb (edge_matches s t ty) (upd_edge q ns <$> es)
  = existsb (edge_matches s t ty) es.
Proof.
  rewrite existsb_fmap. apply existsb_ext. intros e _.
  apply edge_matches_upd_edge.
Qed.

Lemma covered_stamp q q' g : covered q g → covered q (stamp q' g).
Proof.
  intros (Hp & Hb & He). unfold covered, stamp. cbn [nodes edges].
  rewrite existsb_upd_nodes_project, existsb_upd_nodes_bucket, rows_upd_nodes.
  split; [done|]. split; [done|]. intros s t Hin.
  rewrite existsb_upd_edges. by apply He.
Qed.

(** *** What another query creates is invisible to a covered query *)

Lemma upd_node_unmatched q n :
  is_project q n = false → is_bucket q n = false → upd_node q n = n.
Proof. unfold upd_node. by intros -> ->. Qed.

Lemma new_project_unmatched now q q' ns :
  existsb (is_project q) ns = true →
  existsb (is_project q') ns = false →
  is_project q (new_project now q') = false.
Proof.
  intros Hq Hq'. destruct (is_project q (new_project now q')) eqn:E; [|done].
  apply is_project_new_project_inv in E.
  rewrite (existsb_ext (is_project q) (is_project q')) in Hq; [congruence|].
  intros n _. by apply is_project_same_key.
Qed.

Lemma new_bucket_unmatched now q q' ns :
  existsb (is_bucket q) ns = true →
  existsb (is_bucket q') ns = false →
  is_bucket q (new_bucket now q') = false.
Proof.
  intros Hq Hq'. destruct (is_bucket q (new_bucket now q')) eqn:E; [|done].
  apply is_bucket_new_bucket_inv in E.
  rewrite (existsb_ext (is_bucket q) (is_bucket q')) in Hq; [congruence|].
  intros n _. by apply is_bucket_same_key.
Qed.

Lemma existsb_app_false {A} (p : A → bool) l tail :
  existsb p (l ++ tail) = false → existsb p l = false.
Proof. rewrite existsb_app, orb_false_iff. by intros [? _]. Qed.

Lemma create_nodes_tail now q q' ns :
  existsb (is_project q) ns = true →
  existsb (is_bucket q) ns = true →
  ∃ tail, create_nodes now q' ns = ns ++ tail
          ∧ existsb (is_project q) tail = false
          ∧ existsb (is_bucket q) tail = false.
Proof.
  intros Hp Hb. unfold create_nodes. rewrite !add_missing_app, <- app_assoc.
  eexists. split; [done|].
  rewrite (existsb_app (is_project q)), (existsb_app (is_bucket q)).
  assert (existsb (is_project q)
            (if existsb (is_project q') ns then [] else [new_project now q'])
          = false
          ∧ existsb (is_bucket q)
              (if existsb (is_project q') ns then [] else [new_project now q'])
            = false) as [-> ->].
  { destruct (existsb (is_project q') ns) eqn:Ep'; cbn [existsb]; [done|].
    by rewrite (new_project_unmatched now q q' ns),
         (is_bucket_new_project now q q'). }
  destruct (existsb (is_bucket q') (ns ++ _)) eqn:Eb'; cbn [existsb orb];
    [done|].
  apply existsb_app_false in Eb'.
  by rewrite (is_project_new_bucket now q q'),
       (new_bucket_unmatched now q q' ns).
Qed.

Lemma positions_app_unmatched {A} (p : A → bool) l tail :
  existsb p tail = false → positions p 0 (l ++ tail) = positions p 0 l.
Proof.
  intros E. rewrite positions_app.
  by rewrite (proj2 (positions_nil p _ tail) E), app_nil_r.
Qed.

Lemma rows_create_nodes now q q' ns :
  existsb (is_project q) ns = true →
  existsb (is_bucket q) ns = true →
  rows q (create_nodes now q' ns) = rows q ns.
Proof.
  intros Hp Hb.
  destruct (create_nodes_tail now q q' ns Hp Hb) as (tail & -> & Tp & Tb).
  unfold rows. by rewrite !positions_app_unmatched.
Qed.

Lemma covered_create_missing_other now q q' g :
  covered q g → covered q (create_missing now q' g).
Proof.
  intros (Hp & Hb & He). unfold covered, create_missing. cbn [nodes edges].
  rewrite rows_create_nodes by done.
  destruct (create_nodes_tail now q q' (nodes g) Hp Hb) as (tail & -> & _).
  split; [by apply existsb_app_l|]. split; [by apply existsb_app_l|].
  intros s t Hin.
  destruct (create_edges_app now (rows q' (nodes g ++ tail)) (edges g))
    as (etail & -> & _).
  by apply existsb_app_l, He.
Qed.

(** *** Stamping a covered query commutes with another query's creation *)

Lemma add_missing_fmap_cond {A} (p : A → bool) (f : A → A) x l :
  (∀ y, p (f y) = p y) → (existsb p l = false → f x = x) →
  add_missing p x (f <$> l) = f <$> add_missing p x l.
Proof.
  intros Hp Hx. unfold add_missing. rewrite existsb_fmap.
  rewrite (existsb_ext (p ∘ f) p) by (intros; apply Hp).
  destruct (existsb p l); [done|].
  by rewrite fmap_app; simpl; rewrite Hx.
Qed.

Lemma create_nodes_upd_nodes now q q' ns :
  existsb (is_project q) ns = true →
  existsb (is_bucket q) ns = true →
  create_nodes now q' (upd_node q <$> ns)
  = upd_node q <$> create_nodes now q' ns.
Proof.
  intros Hp Hb. unfold create_nodes.
  rewrite (add_missing_fmap_cond (is_project q')).
  - apply add_missing_fmap_cond.
    + intros n. apply is_bucket_upd_node.
    + intros E. rewrite add_missing_app in E. apply existsb_app_false in E.
      apply upd_node_unmatched.
      * apply is_project_new_bucket.
      * by apply (new_bucket_unmatched now q q' ns).
  - intros n. apply is_project_upd_node.
  - intros E. apply upd_node_unmatched.
    + by apply (new_project_unmatched now q q' ns).
    + apply is_bucket_new_project.
Qed.

Lemma create_edges_upd_edges now q ns rws es :
  (∀ s t, (s, t) ∈ rows q ns →
          existsb (edge_matches s t "RESOURCE") es = true) →
  upd_edge q ns <$> create_edges now rws es
  = create_edges now rws (upd_edge q ns <$> es).
Proof.
  revert es. induction rws as [|[s t] rws IH]; intros es He; simpl; [done|].
  rewrite IH.
  - f_equal. symmetry. apply add_missing_fmap_cond.
    + intros e. apply edge_matches_upd_edge.
    + intros E. unfold upd_edge.
      destruct (is_resource q ns (new_resource now s t)) eqn:R; [|done].
      rewrite <- row_matches_rows in R.
      apply existsb_true in R as ([s0 t0] & Hin & Hm). cbn [fst snd] in Hm.
      apply edge_matches_new_resource in Hm as [-> ->].
      rewrite He in E by done. discriminate.
  - intros s0 t0 Hin. by apply existsb_add_missing_mono, He.
Qed.

Lemma stamp_create_missing now q q' g :
  covered q g →
  stamp q (create_missing now q' g) = create_missing now q' (stamp q g).
Proof.
  intros (Hp & Hb & He). unfold stamp, create_missing. cbn [nodes edges].
  rewrite create_nodes_upd_nodes by done. f_equal.
  rewrite rows_upd_nodes.
  rewrite <- (create_edges_upd_edges now q (nodes g)) by done.
  apply list_fmap_ext. intros _ e _. unfold upd_edge.
  by rewrite <- !row_matches_rows, rows_create_nodes.
Qed.

(** *** Stamping a list of queries *)

Lemma key_view_upd_nodes qs n : key_view (upd_nodes qs n) = key_view n.
Proof.
  unfold upd_nodes. revert n. induction qs as [|q qs IH]; intros n; simpl.
  - done.
  - by rewrite IH, key_view_upd_node.
Qed.

Lemma rows_fmap_view q (f : node → node) ns :
  (∀ n, key_view (f n) = key_view n) → rows q (f <$> ns) = rows q ns.
Proof.
  intros Hf. unfold rows. rewrite !positions_fmap. f_equal.
  - apply positions_ext. intros n _. apply is_project_view, Hf.
  - apply positions_ext. intros n _. apply is_bucket_view, Hf.
Qed.

Lemma upd_edge_fmap_view q (f : node → node) ns e :
  (∀ n, key_view (f n) = key_view n) →
  upd_edge q (f <$> ns) e = upd_edge q ns e.
Proof.
  intros Hf. unfold upd_edge.
  by rewrite <- !row_matches_rows, rows_fmap_view.
Qed.

Lemma upd_edges_fmap_view qs (f : node → node) ns e :
  (∀ n, key_view (f n) = key_view n) →
  upd_edges qs (f <$> ns) e = upd_edges qs ns e.
Proof.
  intros Hf. unfold upd_edges. revert e.
  induction qs as [|q qs IH]; intros e; simpl; [done|].
  by rewrite IH, upd_edge_fmap_view.
Qed.

Lemma stamp_all_cons q qs g : stamp_all (q :: qs) g = stamp_all qs (stamp q g).
Proof. done. Qed.

Lemma stamp_all_snoc qs q g : stamp_all (qs ++ [q]) g = stamp q (stamp_all qs g).
Proof. unfold stamp_all. by rewrite foldl_app. Qed.

Lemma nodes_stamp_all qs g : nodes (stamp_all qs g) = upd_nodes qs <$> nodes g.
Proof.
  revert g. induction qs as [|q qs IH]; intros g.
  - simpl. by rewrite list_fmap_id.
  - rewrite stamp_all_cons, IH. unfold stamp. cbn [nodes].
    by rewrite <- list_fmap_compose.
Qed.

Lemma edges_stamp_all qs g :
  edges (stamp_all qs g) = upd_edges qs (nodes g) <$> edges g.
Proof.
  revert g. induction qs as [|q qs IH]; intros g.
  - simpl. by rewrite list_fmap_id.
  - rewrite stamp_all_cons, IH. unfold stamp. cbn [nodes edges].
    rewrite <- list_fmap_compose. apply list_fmap_ext. intros _ e _. simpl.
    apply upd_edges_fmap_view, key_view_upd_node.
Qed.

(** *** The last stamp wins *)

Lemma node_agree_view K n n' :
  "projectnumber" ∉ K → "id" ∉ K → node_agree K n n' →
  key_view n = key_view n'.
Proof.
  intros H1 H2 [Hl Hp]. unfold key_view. by rewrite Hl, !Hp.
Qed.

Lemma node_agree_set_node K kvs n n' :
  node_agree K n n' → node_agree K (set_node kvs n) (set_node kvs n').
Proof.
  intros [Hl Hp]. split; [done|]. intros k Hk. simpl.
  apply set_props_agree. auto.
Qed.

Lemma node_agree_set_node_l K kvs n :
  kvs.*1 ⊆ K → node_agree K (set_node kvs n) n.
Proof.
  intros Hsub. split; [done|]. intros k Hk. simpl.
  apply lookup_set_props_other. intros Hin. by apply Hk, Hsub.
Qed.

Lemma node_agree_refl K n : node_agree K n n.
Proof. by split. Qed.

Lemma node_agree_trans K n1 n2 n3 :
  node_agree K n1 n2 → node_agree K n2 n3 → node_agree K n1 n3.
Proof.
  intros [Hl1 Hp1] [Hl2 Hp2]. split; [congruence|].
  intros k Hk. by rewrite Hp1, Hp2.
Qed.

Lemma node_agree_upd_node K q n n' :
  "projectnumber" ∉ K → "id" ∉ K →
  node_agree K n n' → node_agree K (upd_node q n) (upd_node q n').
Proof.
  intros H1 H2 Ha. unfold upd_node.
  rewrite (is_project_view q n n') by by eapply node_agree_view.
  destruct (is_project q n').
  - rewrite (is_bucket_view q _ (set_node [("lastupdated", VInt (UpdateTag q))] n')).
    + destruct (is_bucket q _); by repeat apply node_agree_set_node.
    + eapply node_agree_view; [done..|]. by apply node_agree_set_node.
  - rewrite (is_bucket_view q n n') by by eapply node_agree_view.
    destruct (is_bucket q n'); [|done]. by apply node_agree_set_node.
Qed.

Lemma node_agree_upd_nodes K qs n n' :
  "projectnumber" ∉ K → "id" ∉ K →
  node_agree K n n' → node_agree K (upd_nodes qs n) (upd_nodes qs n').
Proof.
  intros H1 H2. unfold upd_nodes. revert n n'.
  induction qs as [|q qs IH]; intros n n' Ha; simpl; [done|].
  by apply IH, node_agree_upd_node.
Qed.

Lemma set_node_absorb kvs n n' :
  node_agree kvs.*1 n n' → set_node kvs n = set_node kvs n'.
Proof.
  intros [Hl Hp]. unfold set_node. rewrite Hl. f_equal.
  by apply set_props_absorb.
Qed.

Lemma upd_node_cases q n :
  upd_node q n
  = if is_bucket q n
    then set_node (bucket_assignments q)
           (if is_project q n
            then set_node [("lastupdated", VInt (UpdateTag q))] n else n)
    else if is_project q n
         then set_node [("lastupdated", VInt (UpdateTag q))] n else n.
Proof. unfold upd_node. by rewrite is_bucket_stamp_project. Qed.

Lemma bucket_keys_not_matched q :
  ("projectnumber" ∉ (bucket_assignments q).*1)
  ∧ ("id" ∉ (bucket_assignments q).*1)
  ∧ ("lastupdated" ∈ (bucket_assignments q).*1).
Proof.
  rewrite bucket_assignments_keys, !list_elem_of_In. simpl.
  intuition discriminate.
Qed.

Lemma stamp_keys_not_matched :
  ("projectnumber" ∉ ["lastupdated"]) ∧ ("id" ∉ ["lastupdated"]).
Proof. rewrite !list_elem_of_In. simpl. intuition discriminate. Qed.

(** After a node was stamped by [q], whatever other queries stamped on it in
    between is forgotten when [q] stamps it again. *)
Lemma upd_node_absorb q qs n :
  upd_node q (upd_nodes qs (upd_node q n)) = upd_node q (upd_nodes qs n).
Proof.
  destruct (bucket_keys_not_matched q) as (Kp & Ki & Kl).
  destruct stamp_keys_not_matched as [Sp Si].
  set (x := upd_nodes qs (upd_node q n)). set (y := upd_nodes qs n).
  assert (Vx : key_view x = key_view n)
    by (unfold x; by rewrite key_view_upd_nodes, key_view_upd_node).
  assert (Vy : key_view y = key_view n) by apply key_view_upd_nodes.
  rewrite (upd_node_cases q x), (upd_node_cases q y).
  rewrite (is_bucket_view q x n Vx), (is_bucket_view q y n Vy).
  rewrite (is_project_view q x n Vx), (is_project_view q y n Vy).
  destruct (is_bucket q n) eqn:Eb.
  - assert (Ha : node_agree (bucket_assignments q).*1 x y).
    { apply node_agree_upd_nodes; [done..|]. rewrite upd_node_cases, Eb.
      eapply node_agree_trans; [by apply node_agree_set_node_l|].
      destruct (is_project q n); [|apply node_agree_refl].
      apply node_agree_set_node_l. intros k ->%list_elem_of_singleton.
      done. }
    apply set_node_absorb.
    destruct (is_project q n); [|done]. by apply node_agree_set_node.
  - destruct (is_project q n) eqn:Ep.
    + apply set_node_absorb. apply node_agree_upd_nodes; [done..|].
      rewrite upd_node_cases, Eb, Ep. by apply node_agree_set_node_l.
    + unfold x. by rewrite (upd_node_unmatched q n).
Qed.

Lemma is_resource_agree K q ns e e' :
  edge_agree K e e' → is_resource q ns e = is_resource q ns e'.
Proof. intros (Hs & Ht & Hr & _). unfold is_resource. by rewrite Hs, Ht, Hr. Qed.

Lemma edge_agree_set_edge K kvs e e' :
  edge_agree K e e' → edge_agree K (set_edge kvs e) (set_edge kvs e').
Proof.
  intros (Hs & Ht & Hr & Hp). repeat split; try done.
  intros k Hk. simpl. apply set_props_agree. auto.
Qed.

Lemma edge_agree_set_edge_l K kvs e :
  kvs.*1 ⊆ K → edge_agree K (set_edge kvs e) e.
Proof.
  intros Hsub. repeat split; try done. intros k Hk. simpl.
  apply lookup_set_props_other. intros Hin. by apply Hk, Hsub.
Qed.

Lemma edge_agree_upd_edge K q ns e e' :
  edge_agree K e e' → edge_agree K (upd_edge q ns e) (upd_edge q ns e').
Proof.
  intros Ha. unfold upd_edge. rewrite (is_resource_agree K q ns e e' Ha).
  destruct (is_resource q ns e'); [|done]. by apply edge_agree_set_edge.
Qed.

Lemma edge_agree_upd_edges K qs ns e e' :
  edge_agree K e e' → edge_agree K (upd_edges qs ns e) (upd_edges qs ns e').
Proof.
  unfold upd_edges. revert e e'.
  induction qs as [|q qs IH]; intros e e' Ha; simpl; [done|].
  by apply IH, edge_agree_upd_edge.
Qed.

Lemma set_edge_absorb kvs e e' :
  edge_agree kvs.*1 e e' → set_edge kvs e = set_edge kvs e'.
Proof.
  intros (Hs & Ht & Hr & Hp). unfold set_edge. rewrite Hs, Ht, Hr. f_equal.
  by apply set_props_absorb.
Qed.

Lemma is_resource_upd_edges q ns qs ns' e :
  is_resource q ns (upd_edges qs ns' e) = is_resource q ns e.
Proof.
  unfold upd_edges. revert e.
  induction qs as [|q' qs IH]; intros e; simpl; [done|].
  by rewrite IH, is_resource_upd_edge.
Qed.

Lemma upd_edge_absorb q qs ns e :
  upd_edge q ns (upd_edges qs ns (upd_edge q ns e))
  = upd_edge q ns (upd_edges qs ns e).
Proof.
  unfold upd_edge at 1 3. rewrite !is_resource_upd_edges, is_resource_upd_edge.
  destruct (is_resource q ns e) eqn:R.
  - apply set_edge_absorb, edge_agree_upd_edges.
    unfold upd_edge. rewrite R. by apply edge_agree_set_edge_l.
  - unfold upd_edge. by rewrite R.
Qed.

Lemma stamp_absorb q qs g :
  stamp q (stamp_all qs (stamp q g)) = stamp q (stamp_all qs g).
Proof.
  unfold stamp at 1 3. rewrite !nodes_stamp_all, !edges_stamp_all.
  unfold stamp. cbn [nodes edges]. f_equal.
  - rewrite <- !list_fmap_compose. apply list_fmap_ext. intros _ n _. simpl.
    apply upd_node_absorb.
  - rewrite <- !list_fmap_compose. apply list_fmap_ext. intros _ e _. simpl.
    rewrite (upd_edge_fmap_view q (upd_nodes qs ∘ upd_node q))
      by (intros n; simpl; by rewrite key_view_upd_nodes, key_view_upd_node).
    rewrite (upd_edge_fmap_view q (upd_nodes qs))
      by apply key_view_upd_nodes.
    rewrite (upd_edges_fmap_view qs (upd_node q)) by apply key_view_upd_node.
    apply upd_edge_absorb.
Qed.

(** *** Running the queries of a load twice *)

Lemma covered_ingest now q g : covered q (ingest now q g).
Proof.
  rewrite ingest_stamp_create. apply covered_stamp, covered_create_missing.
Qed.

Lemma covered_ingest_other now q q' g :
  covered q g → covered q (ingest now q' g).
Proof.
  intros Hc. rewrite ingest_stamp_create.
  by apply covered_stamp, covered_create_missing_other.
Qed.

Lemma covered_ingest_all_other clock i q qs g :
  covered q g → covered q (ingest_all clock i qs g).
Proof.
  revert i g. induction qs as [|q' qs IH]; intros i g Hc; simpl; [done|].
  by apply IH, covered_ingest_other.
Qed.

Lemma covered_ingest_all clock i qs g :
  Forall (λ q, covered q (ingest_all clock i qs g)) qs.
Proof.
  revert i g. induction qs as [|q qs IH]; intros i g; simpl; constructor.
  - apply covered_ingest_all_other, covered_ingest.
  - apply IH.
Qed.

Lemma ingest_covered now q g : covered q g → ingest now q g = stamp q g.
Proof.
  intros Hc. by rewrite ingest_stamp_create, create_missing_covered.
Qed.

Lemma ingest_all_covered clock i qs g :
  Forall (λ q, covered q g) qs → ingest_all clock i qs g = stamp_all qs g.
Proof.
  revert i g. induction qs as [|q qs IH]; intros i g Hc; [done|].
  apply Forall_cons in Hc as [Hq Hqs]. simpl.
  rewrite ingest_covered by done. apply IH.
  eapply Forall_impl; [exact Hqs|]. intros q'. apply covered_stamp.
Qed.

Lemma ingest_all_snoc clock i qs q g :
  ingest_all clock i (qs ++ [q]) g
  = ingest (clock (i + length qs)) q (ingest_all clock i qs g).
Proof.
  revert i g. induction qs as [|q' qs IH]; intros i g; simpl.
  - by rewrite Nat.add_0_r.
  - rewrite IH. do 2 f_equal. lia.
Qed.

Lemma stamp_all_create_missing now q qs g :
  Forall (λ q', covered q' g) qs →
  stamp_all qs (create_missing now q g) = create_missing now q (stamp_all qs g).
Proof.
  revert g. induction qs as [|q' qs IH]; intros g Hc; [done|].
  apply Forall_cons in Hc as [Hq Hqs]. rewrite !stamp_all_cons.
  rewrite stamp_create_missing by done. apply IH.
  eapply Forall_impl; [exact Hqs|]. intros q''. apply covered_stamp.
Qed.

(** Running the queries of a load a second time, at whatever later times,
    leaves the graph as the first run left it. *)
Theorem ingest_all_idempotent clock clock' i j qs g :
  ingest_all clock' j qs (ingest_all clock i qs g) = ingest_all clock i qs g.
Proof.
  revert clock' j. induction qs as [|q qs IH] using rev_ind; intros clock' j.
  - done.
  - pose proof (covered_ingest_all clock i (qs ++ [q]) g) as Hall.
    rewrite (ingest_all_covered clock' j) by done.
    rewrite stamp_all_snoc, ingest_all_snoc.
    set (G' := ingest_all clock i qs g).
    set (now := clock (i + length qs)).
    rewrite ingest_stamp_create, stamp_absorb.
    pose proof (covered_ingest_all clock i qs g) as Hqs. fold G' in Hqs.
    rewrite stamp_all_create_missing by done.
    rewrite <- (ingest_all_covered clock' j qs G') by done.
    unfold G'. by rewrite IH.
Qed.

(** *** [load_gcp_buckets] *)

Section Load.
Context `{Database}.

Lemma load_gcp_buckets_run buckets gcp_update_tag w :
  load_gcp_buckets buckets gcp_update_tag w
  = (World
       (ingest_all timestamp (ticks w) (accepted buckets gcp_update_tag) (db w))
       (sync_state w)
       (ticks w + queries_sent buckets gcp_update_tag)
       (log w),
     load_outcome buckets gcp_update_tag).
Proof.
  revert w. induction buckets as [|bucket buckets IH]; intros w.
  - simpl. unfold mret, M_ret. rewrite Nat.add_0_r. by destruct w.
  - cbn [load_gcp_buckets accepted queries_sent load_outcome].
    unfold mbind, M_bind, lift.
    destruct (query_args bucket gcp_update_tag) as [q|e].
    + unfold session_run, run_query. destruct (refusal q).
      * rewrite Nat.add_1_r. by destruct w.
      * rewrite IH. cbn [db sync_state ticks log ingest_all].
        do 2 f_equal. lia.
    + rewrite Nat.add_0_r. by destruct w.
Qed.
End Load.

(** *** Whatever is stamped carries the update tag *)

Lemma query_args_tag bucket t q : query_args bucket t = Ok q → UpdateTag q = t.
Proof.
  unfold query_args. intros E. bind_inv E. apply Ok_inj in E. by subst q.
Qed.

Lemma accepted_tag `{Database} buckets t :
  Forall (λ q, UpdateTag q = t) (accepted buckets t).
Proof.
  induction buckets as [|bucket buckets IH]; simpl; [constructor|].
  destruct (query_args bucket t) as [q|] eqn:E; [|constructor].
  destruct (refusal q); constructor; [|done]. by eapply query_args_tag.
Qed.

Lemma lastupdated_stamp_project t n :
  props (set_node [("lastupdated", VInt t)] n) !! "lastupdated"
  = Some (VInt t).
Proof. unfold set_node. cbn [props]. by rewrite lookup_set_props. Qed.

Lemma lastupdated_stamp_bucket q n :
  props (set_node (bucket_assignments q) n) !! "lastupdated"
  = Some (VInt (UpdateTag q)).
Proof. unfold set_node. cbn [props]. by rewrite lookup_set_props. Qed.

Lemma upd_node_lastupdated q n :
  is_project q n = true ∨ is_bucket q n = true →
  props (upd_node q n) !! "lastupdated" = Some (VInt (UpdateTag q)).
Proof.
  rewrite upd_node_cases. intros Hm.
  destruct (is_bucket q n); [apply lastupdated_stamp_bucket|].
  destruct (is_project q n); [apply lastupdated_stamp_project|].
  by destruct Hm.
Qed.

(** A query leaves a node alone or leaves its tag on it. *)
Lemma upd_node_written q n :
  upd_node q n = n
  ∨ props (upd_node q n) !! "lastupdated" = Some (VInt (UpdateTag q)).
Proof.
  destruct (is_project q n) eqn:Ep; [right; apply upd_node_lastupdated; auto|].
  destruct (is_bucket q n) eqn:Eb; [right; apply upd_node_lastupdated; auto|].
  left. by apply upd_node_unmatched.
Qed.

Lemma upd_nodes_keeps_lastupdated t qs n :
  Forall (λ q, UpdateTag q = t) qs →
  props n !! "lastupdated" = Some (VInt t) →
  props (upd_nodes qs n) !! "lastupdated" = Some (VInt t).
Proof.
  unfold upd_nodes. intros Ht. revert n.
  induction Ht as [|q qs Hq _ IH]; intros n Hn; simpl; [done|].
  apply IH. destruct (upd_node_written q n) as [-> | Hw]; [done|].
  by rewrite Hw, Hq.
Qed.

Lemma upd_nodes_lastupdated t qs q n :
  Forall (λ q, UpdateTag q = t) qs → q ∈ qs →
  is_project q n = true ∨ is_bucket q n = true →
  props (upd_nodes qs n) !! "lastupdated" = Some (VInt t).
Proof.
  intros Ht. revert n. induction Ht as [|q' qs Hq' Hqs IH]; intros n Hin Hm.
  - by apply elem_of_nil in Hin.
  - change (upd_nodes (q' :: qs) n) with (upd_nodes qs (upd_node q' n)).
    apply elem_of_cons in Hin as [-> | Hin].
    + apply upd_nodes_keeps_lastupdated; [done|].
      rewrite <- Hq'. by apply upd_node_lastupdated.
    + apply IH; [done|].
      by rewrite is_project_upd_node, is_bucket_upd_node.
Qed.

Lemma lastupdated_stamp_edge t e :
  rprops (set_edge [("lastupdated", VInt t)] e) !! "lastupdated"
  = Some (VInt t).
Proof. unfold set_edge. cbn [rprops]. by rewrite lookup_set_props. Qed.

Lemma upd_edge_written q ns e :
  upd_edge q ns e = e
  ∨ rprops (upd_edge q ns e) !! "lastupdated" = Some (VInt (UpdateTag q)).
Proof.
  unfold upd_edge. destruct (is_resource q ns e); [right|by left].
  apply lastupdated_stamp_edge.
Qed.

Lemma upd_edges_keeps_lastupdated t qs ns e :
  Forall (λ q, UpdateTag q = t) qs →
  rprops e !! "lastupdated" = Some (VInt t) →
  rprops (upd_edges qs ns e) !! "lastupdated" = Some (VInt t).
Proof.
  unfold upd_edges. intros Ht. revert e.
  induction Ht as [|q qs Hq _ IH]; intros e He; simpl; [done|].
  apply IH. destruct (upd_edge_written q ns e) as [-> | Hw]; [done|].
  by rewrite Hw, Hq.
Qed.

Lemma upd_edges_lastupdated t qs ns q e :
  Forall (λ q, UpdateTag q = t) qs → q ∈ qs →
  is_resource q ns e = true →
  rprops (upd_edges qs ns e) !! "lastupdated" = Some (VInt t).
Proof.
  intros Ht. revert e. induction Ht as [|q' qs Hq' Hqs IH]; intros e Hin Hm.
  - by apply elem_of_nil in Hin.
  - change (upd_edges (q' :: qs) ns e)
      with (upd_edges qs ns (upd_edge q' ns e)).
    apply elem_of_cons in Hin as [-> | Hin].
    + apply upd_edges_keeps_lastupdated; [done|].
      rewrite <- Hq'. unfold upd_edge. rewrite Hm.
      apply lastupdated_stamp_edge.
    + apply IH; [done|]. by rewrite is_resource_upd_edge.
Qed.

(** After the queries of a load, every node and relationship matched by
    one of them carries the tag. *)
Lemma ingest_all_lastupdated clock i t qs g q :
  Forall (λ q, UpdateTag q = t) qs → q ∈ qs →
  let G := ingest_all clock i qs g in
  (∀ n, n ∈ nodes G → is_project q n = true ∨ is_bucket q n = true →
        props n !! "lastupdated" = Some (VInt t))
  ∧ (∀ e, e ∈ edges G → is_resource q (nodes G) e = true →
          rprops e !! "lastupdated" = Some (VInt t)).
Proof.
  intros Ht Hin G.
  assert (EG : G = stamp_all qs G).
  { rewrite <- (ingest_all_covered clock i) by apply covered_ingest_all.
    unfold G. by rewrite ingest_all_idempotent. }
  split.
  - intros n Hn Hm. rewrite EG, nodes_stamp_all in Hn.
    apply list_elem_of_fmap in Hn as (n0 & -> & _).
    apply (upd_nodes_lastupdated t qs q); [done..|].
    by rewrite <- (is_project_view q _ _ (key_view_upd_nodes qs n0)),
         <- (is_bucket_view q _ _ (key_view_upd_nodes qs n0)).
  - intros e He Hm. rewrite EG, edges_stamp_all in He.
    apply list_elem_of_fmap in He as (e0 & -> & _).
    apply (upd_edges_lastupdated t qs (nodes G) q); [done..|].
    by rewrite is_resource_upd_edges in Hm.
Qed.

(** C1. Invoking [load_gcp_buckets] a second time with the same records
    and the same tag, on the graph the first invocation left, gives back
    that very graph: the same nodes and relationships at the same
    positions (nothing is created twice) with the same properties
    ([firstseen] included), and it ends the way the first invocation ended.
    Every node and relationship matched by a query of the load carries the
    tag as [lastupdated]. *)
Theorem load_gcp_buckets_idempotent `{Database}
    (buckets : list record) (gcp_update_tag : Z) (w w' : world) :
  db w' = db (load_gcp_buckets buckets gcp_update_tag w).1 →
  let again := load_gcp_buckets buckets gcp_update_tag w' in
  db again.1 = db w'
  ∧ again.2 = (load_gcp_buckets buckets gcp_update_tag w).2
  ∧ length (nodes (db again.1)) = length (nodes (db w'))
  ∧ length (edges (db again.1)) = length (edges (db w'))
  ∧ (∀ i n, nodes (db w') !! i = Some n →
            ∃ n', nodes (db again.1) !! i = Some n'
                  ∧ props n' !! "firstseen" = props n !! "firstseen")
  ∧ (∀ i e, edges (db w') !! i = Some e →
            ∃ e', edges (db again.1) !! i = Some e'
                  ∧ rprops e' !! "firstseen" = rprops e !! "firstseen")
  ∧ ∀ q, q ∈ accepted buckets gcp_update_tag →
         (∀ n, n ∈ nodes (db again.1) →
               is_project q n = true ∨ is_bucket q n = true →
               props n !! "lastupdated" = Some (VInt gcp_update_tag))
         ∧ (∀ e, e ∈ edges (db again.1) →
                 is_resource q (nodes (db again.1)) e = true →
                 rprops e !! "lastupdated" = Some (VInt gcp_update_tag)).
Proof.
  intros Hw' again.
  assert (Hdb : db again.1 = db w').
  { unfold again. rewrite load_gcp_buckets_run. cbn [fst db].
    rewrite Hw', load_gcp_buckets_run. cbn [fst db].
    apply ingest_all_idempotent. }
  split; [done|]. split.
  { unfold again. by rewrite !load_gcp_buckets_run. }
  rewrite Hdb. split; [done|]. split; [done|].
  split; [by eauto|]. split; [by eauto|].
  intros q Hq. rewrite Hw', load_gcp_buckets_run. cbn [fst db].
  apply ingest_all_lastupdated; [apply accepted_tag | done].
Qed.

Lemma load_gcp_buckets_idempotent_witness :
  let first := load_gcp_buckets (H := example_database) example_buckets 100
                 empty_world in
  db (load_gcp_buckets (H := example_database) example_buckets 100 first.1).1
  = db first.1
  ∧ length (nodes (db first.1)) = 3.
Proof.
  intros first. split.
  - apply (load_gcp_buckets_idempotent (H := example_database) example_buckets 100
             empty_world first.1 eq_refl).
  - vm_compute. reflexivity.
Defined.

(** *** Existing nodes and relationships are updated in place *)

Lemma mutable_keys_spec q : (bucket_assignments q).*1 = mutable_keys.
Proof. reflexivity. Qed.

Lemma lastupdated_mutable : ["lastupdated"] ⊆ mutable_keys.
Proof.
  intros k ->%list_elem_of_singleton. unfold mutable_keys.
  rewrite list_elem_of_In. simpl. tauto.
Qed.

Lemma node_agree_upd_node_l q n : node_agree mutable_keys (upd_node q n) n.
Proof.
  rewrite upd_node_cases.
  assert (Hp : node_agree mutable_keys
                 (if is_project q n
                  then set_node [("lastupdated", VInt (UpdateTag q))] n else n)
                 n).
  { destruct (is_project q n); [|apply node_agree_refl].
    apply node_agree_set_node_l, lastupdated_mutable. }
  destruct (is_bucket q n); [|done].
  eapply node_agree_trans; [|exact Hp].
  apply node_agree_set_node_l. by rewrite mutable_keys_spec.
Qed.

Lemma create_nodes_app now q ns :
  ∃ tail, create_nodes now q ns = ns ++ tail
          ∧ ∀ n, n ∈ tail → n = new_project now q ∨ n = new_bucket now q.
Proof.
  unfold create_nodes. rewrite !add_missing_app, <- app_assoc.
  eexists. split; [done|]. intros n [Hn|Hn]%elem_of_app.
  - destruct (existsb _ ns); [by apply elem_of_nil in Hn|].
    left. by apply list_elem_of_singleton in Hn.
  - destruct (existsb _ (ns ++ _)); [by apply elem_of_nil in Hn|].
    right. by apply list_elem_of_singleton in Hn.
Qed.

Lemma nodes_ingest now q g :
  nodes (ingest now q g) = upd_node q <$> create_nodes now q (nodes g).
Proof. by rewrite ingest_stamp_create. Qed.

Lemma edges_ingest now q g :
  edges (ingest now q g)
  = upd_edge q (create_nodes now q (nodes g))
    <$> create_edges now (rows q (create_nodes now q (nodes g))) (edges g).
Proof. by rewrite ingest_stamp_create. Qed.

Lemma ingest_node_in_place now q g i n :
  nodes g !! i = Some n →
  nodes (ingest now q g) !! i = Some (upd_node q n).
Proof.
  intros Hn. rewrite nodes_ingest, list_lookup_fmap.
  destruct (create_nodes_app now q (nodes g)) as (tail & -> & _).
  by rewrite lookup_app_l, Hn by (by eapply lookup_lt_Some).
Qed.

Lemma ingest_edge_in_place now q g i e :
  edges g !! i = Some e →
  ∃ ns, edges (ingest now q g) !! i = Some (upd_edge q ns e).
Proof.
  intros He. rewrite edges_ingest. eexists. rewrite list_lookup_fmap.
  destruct (create_edges_app now (rows q (create_nodes now q (nodes g)))
              (edges g)) as (tail & -> & _).
  by rewrite lookup_app_l, He by (by eapply lookup_lt_Some).
Qed.

Lemma edge_agree_upd_edge_l q ns e :
  edge_agree ["lastupdated"] (upd_edge q ns e) e.
Proof.
  unfold upd_edge. destruct (is_resource q ns e); [|by repeat split].
  by apply edge_agree_set_edge_l.
Qed.

Lemma edge_agree_trans K e1 e2 e3 :
  edge_agree K e1 e2 → edge_agree K e2 e3 → edge_agree K e1 e3.
Proof.
  intros (S1 & T1 & R1 & P1) (S2 & T2 & R2 & P2).
  repeat split; try congruence. intros k Hk. by rewrite P1, P2.
Qed.

Lemma ingest_all_in_place clock i qs g :
  (∀ j n, nodes g !! j = Some n →
          ∃ n', nodes (ingest_all clock i qs g) !! j = Some n'
                ∧ node_agree mutable_keys n' n)
  ∧ (∀ j e, edges g !! j = Some e →
            ∃ e', edges (ingest_all clock i qs g) !! j = Some e'
                  ∧ edge_agree ["lastupdated"] e' e).
Proof.
  revert i g. induction qs as [|q qs IH]; intros i g; simpl.
  - split; intros j x Hx; exists x; (split; [done|]);
      [apply node_agree_refl | by repeat split].
  - destruct (IH (S i) (ingest (clock i) q g)) as [IHn IHe]. split.
    + intros j n Hn.
      destruct (IHn j _ (ingest_node_in_place (clock i) q g j n Hn))
        as (n' & Hn' & Ha).
      exists n'. split; [done|].
      eapply node_agree_trans; [exact Ha|]. apply node_agree_upd_node_l.
    + intros j e He.
      destruct (ingest_edge_in_place (clock i) q g j e He) as (ns & He1).
      destruct (IHe j _ He1) as (e' & He' & Ha).
      exists e'. split; [done|].
      eapply edge_agree_trans; [exact Ha|]. apply edge_agree_upd_edge_l.
Qed.

(** *** A key that exists is never given a second node *)







(** *** The bucket node reads the values of the last record with its id *)
















(** *** What a load writes carries the tag *)

Lemma ingest_written now q g : written (UpdateTag q) g (ingest now q g).
Proof.
  split.
  - intros i n'. rewrite nodes_ingest, list_lookup_fmap.
    destruct (create_nodes_app now q (nodes g)) as (tail & -> & Htail).
    destruct ((nodes g ++ tail) !! i) as [c|] eqn:Hc; [|done].
    intros [= <-]. apply lookup_app_Some in Hc as [Hc | [_ Hc]].
    + destruct (upd_node_written q c) as [-> | Hw]; auto.
    + right. apply upd_node_lastupdated.
      destruct (Htail c (list_elem_of_lookup_2 _ _ _ Hc)) as [-> | ->].
      * left. apply is_project_new_project.
      * right. apply is_bucket_new_bucket.
  - intros i e'. rewrite edges_ingest, list_lookup_fmap.
    set (cn := create_nodes now q (nodes g)).
    destruct (create_edges_app now (rows q cn) (edges g))
      as (tail & -> & Htail).
    destruct ((edges g ++ tail) !! i) as [c|] eqn:Hc; [|done].
    intros [= <-]. apply lookup_app_Some in Hc as [Hc | [_ Hc]].
    + destruct (upd_edge_written q cn c) as [-> | Hw]; auto.
    + right.
      destruct (Htail c (list_elem_of_lookup_2 _ _ _ Hc))
        as (s & t & Hin & ->).
      unfold upd_edge. rewrite <- row_matches_rows.
      assert (row_matches (rows q cn) (new_resource now s t) = true) as ->.
      { apply existsb_true. exists (s, t). split; [done|].
        by apply edge_matches_new_resource. }
      apply lastupdated_stamp_edge.
Qed.

Lemma written_refl t g : written t g g.
Proof. split; auto. Qed.

Lemma written_trans t g1 g2 g3 :
  written t g1 g2 → written t g2 g3 → written t g1 g3.
Proof.
  intros [N1 E1] [N2 E2]. split.
  - intros i n Hn. destruct (N2 i n Hn) as [H2 | ?]; auto.
  - intros i e He. destruct (E2 i e He) as [H2 | ?]; auto.
Qed.

Lemma ingest_all_written t clock i qs g :
  Forall (λ q, UpdateTag q = t) qs → written t g (ingest_all clock i qs g).
Proof.
  intros Ht. revert i g.
  induction Ht as [|q qs Hq _ IH]; intros i g; simpl.
  - apply written_refl.
  - eapply written_trans; [|apply IH]. rewrite <- Hq. apply ingest_written.
Qed.

Lemma load_gcp_buckets_written `{Database} buckets gcp_update_tag w :
  written gcp_update_tag (db w)
    (db (load_gcp_buckets buckets gcp_update_tag w).1).
Proof.
  rewrite load_gcp_buckets_run. cbn [fst db].
  apply ingest_all_written, accepted_tag.
Qed.

(** *** Calls made to collaborators *)

Lemma bind_assoc {A B C} (m : M A) (f : A → M B) (g : B → M C) w :
  ((m ≫= f) ≫= g) w = (m ≫= λ a, f a ≫= g) w.
Proof.
  unfold mbind, M_bind. destruct (m w) as [w1 [a|e]]; [|done]. done.
Qed.

Lemma emits_ret {A} P (a : A) : emits P (mret a).
Proof. intros w. exists []. split; [by rewrite app_nil_r | by intros ? ?%elem_of_nil]. Qed.

Lemma emits_raise {A} P e : emits P (raise (A := A) e).
Proof. intros w. exists []. split; [by rewrite app_nil_r | by intros ? ?%elem_of_nil]. Qed.

Lemma emits_lift {A} P (r : result A) : emits P (lift r).
Proof. intros w. exists []. split; [by rewrite app_nil_r | by intros ? ?%elem_of_nil]. Qed.

Lemma emits_logger P lvl msg : emits P (logger lvl msg).
Proof.
  intros w. exists [Logged lvl msg]. split; [done|].
  by intros c [=]%list_elem_of_singleton.
Qed.

Lemma emits_invoke `{Collaborators} (P : call → Prop) c :
  P c → emits P (invoke c).
Proof.
  intros Hc w. exists [Called c]. rewrite invoke_run. split; [done|].
  by intros c' [= ->]%list_elem_of_singleton.
Qed.

Lemma emits_bind {A B} P (m : M A) (f : A → M B) :
  emits P m → (∀ a, emits P (f a)) → emits P (m ≫= f).
Proof.
  intros Hm Hf w. unfold mbind, M_bind.
  destruct (Hm w) as (evs1 & E1 & H1).
  destruct (m w) as [w1 [a|e]]; simpl in E1.
  - destruct (Hf a w1) as (evs2 & E2 & H2). exists (evs1 ++ evs2).
    rewrite E2, E1, app_assoc. split; [done|].
    intros c [?|?]%elem_of_app; auto.
  - exists evs1. auto.
Qed.

Lemma emits_try_except {A} P (m : M A) (h : exn → option (M A)) :
  emits P m → (∀ e k, h e = Some k → emits P k) → emits P (try_except m h).
Proof.
  intros Hm Hh w. unfold try_except.
  destruct (Hm w) as (evs1 & E1 & H1).
  destruct (m w) as [w1 [a|e]]; simpl in E1; [by exists evs1|].
  destruct (h e) as [k|] eqn:Ek; [|by exists evs1].
  destruct (Hh e k Ek w1) as (evs2 & E2 & H2). exists (evs1 ++ evs2).
  rewrite E2, E1, app_assoc. split; [done|].
  intros c [?|?]%elem_of_app; auto.
Qed.

Lemma emits_new_sync_state `{Collaborators} P : emits P new_sync_state.
Proof. intros w. exists []. split; [by rewrite app_nil_r | by intros ? ?%elem_of_nil]. Qed.

Lemma emits_load_gcp_buckets `{Database} P buckets gcp_update_tag :
  emits P (load_gcp_buckets buckets gcp_update_tag).
Proof.
  intros w. exists []. rewrite load_gcp_buckets_run.
  split; [by rewrite app_nil_r | by intros ? ?%elem_of_nil].
Qed.

Lemma emits_get_gcp_buckets `{Compute} P storage project_id :
  emits P (get_gcp_buckets storage project_id).
Proof.
  apply emits_try_except; [apply emits_lift|].
  intros [] k [= <-]. repeat case_decide;
    repeat first [ apply emits_bind; [|intros ?] | apply emits_logger
                 | apply emits_ret | apply emits_raise ].
Qed.

Lemma emits_new_calls {A} P (m : M A) w c :
  emits P m → Called c ∈ log (m w).1 → Called c ∈ log w ∨ P c.
Proof.
  intros Hm Hc. destruct (Hm w) as (evs & E & HP). rewrite E in Hc.
  apply elem_of_app in Hc as [?|?]; auto.
Qed.

(** *** The orchestrators *)

Lemma db_get_gcp_buckets `{Compute} storage project_id w :
  db (get_gcp_buckets storage project_id w).1 = db w.
Proof.
  unfold get_gcp_buckets, try_except, lift.
  destruct (buckets_list storage project_id) as [res|[]]; try done.
  by repeat case_decide.
Qed.

Lemma sync_gcp_buckets_split `{Compute, Database, Collaborators}
    storage project_id gcp_update_tag common_job_parameters w :
  sync_gcp_buckets storage project_id gcp_update_tag common_job_parameters w
  = (fetch_transform_load storage project_id gcp_update_tag;;
     cleanup_gcp_buckets common_job_parameters) w.
Proof.
  unfold sync_gcp_buckets, fetch_transform_load, mbind, M_bind.
  destruct (get_gcp_buckets storage project_id w) as [w0 [res|e]]; [|done].
  by destruct (lift (transform_gcp_buckets res) w0) as [w1 [records|e]].
Qed.

Lemma fetch_transform_load_written `{Compute, Database}
    storage project_id gcp_update_tag w :
  written gcp_update_tag (db w)
    (db (fetch_transform_load storage project_id gcp_update_tag w).1).
Proof.
  unfold fetch_transform_load, mbind, M_bind.
  pose proof (db_get_gcp_buckets storage project_id w) as Hdb.
  destruct (get_gcp_buckets storage project_id w) as [w0 [res|e]];
    cbn [fst] in *; [|rewrite Hdb; apply written_refl].
  unfold lift. destruct (transform_gcp_buckets res) as [records|e];
    cbn [fst]; [|rewrite Hdb; apply written_refl].
  rewrite <- Hdb. apply load_gcp_buckets_written.
Qed.

Lemma emits_sync_gcp_buckets `{Compute, Database, Collaborators}
    storage project_id gcp_update_tag common_job_parameters :
  emits (λ c, c = run_cleanup_job "gcp_storage_bucket_cleanup.json"
                    common_job_parameters)
    (sync_gcp_buckets storage project_id gcp_update_tag
       common_job_parameters).
Proof.
  unfold sync_gcp_buckets, cleanup_gcp_buckets.
  apply emits_bind; [apply emits_get_gcp_buckets|]. intros res.
  apply emits_bind; [apply emits_lift|]. intros records.
  apply emits_bind; [apply emits_load_gcp_buckets|]. intros _.
  by apply emits_invoke.
Qed.

Lemma call_tag_okta_cleanup job c :
  call_tag (run_cleanup_job job (okta_job_parameters c))
  = VInt (update_tag c).
Proof.
  unfold call_tag, okta_job_parameters.
  by rewrite lookup_insert_ne, lookup_insert_eq.
Qed.

Lemma emits_start_okta_ingestion `{Collaborators} config :
  emits (λ c, call_tag c = VInt (update_tag config))
    (start_okta_ingestion config).
Proof.
  unfold start_okta_ingestion, _cleanup_okta_organizations.
  destruct (truthy (okta_api_key config)); cbn [negb];
    [|apply emits_logger].
  repeat (apply emits_bind; [|intros _]);
    try apply emits_logger; try apply emits_new_sync_state;
    try (by apply emits_invoke).
  apply emits_try_except; [by apply emits_invoke|].
  intros [] k [= <-]. apply emits_bind; [apply emits_logger|]. intros _.
  case_decide; [apply emits_logger | apply emits_ret].
Qed.

(** C3 as stated fails for [sync_gcp_buckets]: called with update tag 100
    and job parameters whose [UPDATE_TAG] is 200, it stamps the nodes with
    100 and runs the cleanup job with 200. *)
Lemma sync_gcp_buckets_two_tags_counterexample :
  let run :=
    @sync_gcp_buckets reason_of_content example_database idle_collaborators
      (listing_storage example_response) "p1" 100
      (<["UPDATE_TAG" := VInt 200]> ∅) empty_world in
  run.2 = Ok tt
  ∧ (props <$> nodes (db run.1) !! 1) ≫= (.!! "lastupdated")
    = Some (VInt 100)
  ∧ call_tag <$> (last (log run.1) ≫= λ ev,
                    match ev with Called c => Some c | _ => None end)
    = Some (VInt 200).
Proof. vm_compute. repeat split. Qed.

(** C3 (amended). Every node and relationship written by
    [load_gcp_buckets] carries its tag argument as [lastupdated].
    [sync_gcp_buckets] loads with [gcp_update_tag] and then calls the
    cleanup job with the [common_job_parameters] it was given, untouched:
    the job's [UPDATE_TAG] is the load's tag when the caller passed it so,
    the function itself does not relate its two arguments.  In
    [start_okta_ingestion] every stage and the cleanup job receive
    [config.update_tag]. *)
Theorem single_tag_per_run `{Compute, Database, Collaborators} :
  (∀ buckets gcp_update_tag w,
      written gcp_update_tag (db w)
        (db (load_gcp_buckets buckets gcp_update_tag w).1))
  ∧ (∀ storage project_id gcp_update_tag common_job_parameters w,
        let run :=
          sync_gcp_buckets storage project_id gcp_update_tag
            common_job_parameters w in
        run = (fetch_transform_load storage project_id gcp_update_tag;;
               cleanup_gcp_buckets common_job_parameters) w
        ∧ written gcp_update_tag (db w)
            (db (fetch_transform_load storage project_id gcp_update_tag w).1)
        ∧ (∀ c, Called c ∈ log run.1 →
                Called c ∈ log w
                ∨ c = run_cleanup_job "gcp_storage_bucket_cleanup.json"
                        common_job_parameters)
        ∧ (common_job_parameters !! "UPDATE_TAG" = Some (VInt gcp_update_tag) →
           ∀ c, Called c ∈ log run.1 →
                Called c ∈ log w ∨ call_tag c = VInt gcp_update_tag))
  ∧ (∀ config w c,
        Called c ∈ log (start_okta_ingestion config w).1 →
        Called c ∈ log w ∨ call_tag c = VInt (update_tag config)).
Proof.
  split; [|split].
  - intros. apply load_gcp_buckets_written.
  - intros storage project_id t cjp w run.
    split; [apply sync_gcp_buckets_split|].
    split; [apply fetch_transform_load_written|].
    assert (Hnew : ∀ c, Called c ∈ log run.1 →
                        Called c ∈ log w
                        ∨ c = run_cleanup_job
                                "gcp_storage_bucket_cleanup.json" cjp).
    { intros c.
      apply (emits_new_calls
               (λ c, c = run_cleanup_job "gcp_storage_bucket_cleanup.json"
                           cjp)).
      apply emits_sync_gcp_buckets. }
    split; [exact Hnew|]. intros Htag c Hc.
    destruct (Hnew c Hc) as [?| ->]; [by left|]. right. simpl.
    by rewrite Htag.
  - intros config w c.
    apply (emits_new_calls (λ c, call_tag c = VInt (update_tag config))).
    apply emits_start_okta_ingestion.
Qed.

Lemma single_tag_per_run_witness :
  let run :=
    @sync_gcp_buckets reason_of_content example_database idle_collaborators
      (listing_storage example_response) "p1" 100
      (<["UPDATE_TAG" := VInt 100]> ∅) empty_world in
  Called (run_cleanup_job "gcp_storage_bucket_cleanup.json"
            (<["UPDATE_TAG" := VInt 100]> ∅)) ∈ log empty_world
  ∨ call_tag (run_cleanup_job "gcp_storage_bucket_cleanup.json"
                (<["UPDATE_TAG" := VInt 100]> ∅)) = VInt 100.
Proof.
  intros run.
  destruct (@single_tag_per_run reason_of_content example_database
              idle_collaborators) as (_ & Hsync & _).
  destruct (Hsync (listing_storage example_response) "p1" 100%Z
              (<["UPDATE_TAG" := VInt 100]> ∅) empty_world)
    as (_ & _ & _ & Htag).
  apply Htag; [reflexivity|].
  vm_compute. apply list_elem_of_here.
Defined.

(** C10. When the bucket listing fails with reason "forbidden" or
    "invalid": [get_gcp_buckets] returns [{}] after one warning and without
    touching the graph, [transform_gcp_buckets] turns [{}] into the empty
    list, [load_gcp_buckets] of the empty list writes nothing, and
    [sync_gcp_buckets] goes on to call the cleanup job: the run ends the
    way the cleanup job ends, on the graph it found. *)
Theorem sync_gcp_buckets_soft_failed_fetch `{Compute, Database, Collaborators}
    (storage : storage_resource) (project_id : string) (gcp_update_tag : Z)
    (common_job_parameters : gmap string pyval) (e : http_error) (w : world) :
  buckets_list storage project_id = Raise (HttpError e) →
  _get_error_reason e = "forbidden" ∨ _get_error_reason e = "invalid" →
  ∃ msg,
    let w1 := with_log w [Logged WARNING msg] in
    let job := run_cleanup_job "gcp_storage_bucket_cleanup.json"
                 common_job_parameters in
    get_gcp_buckets storage project_id w = (w1, Ok (VDict []))
    ∧ transform_gcp_buckets (VDict []) = Ok []
    ∧ load_gcp_buckets [] gcp_update_tag w1 = (w1, Ok tt)
    ∧ sync_gcp_buckets storage project_id gcp_update_tag
        common_job_parameters w
      = invoke job w1
    ∧ log (invoke job w1).1 = log w ++ [Logged WARNING msg; Called job]
    ∧ (invoke job w1).2 = (perform job (db w, sync_state w)).2.
Proof.
  intros E R.
  assert (∃ msg, get_gcp_buckets storage project_id w
                 = (with_log w [Logged WARNING msg], Ok (VDict [])))
    as (msg & Hget).
  { unfold get_gcp_buckets, try_except, lift. rewrite E.
    cbn [fst snd]. destruct R as [R | R]; rewrite R;
      repeat case_decide; try done; by eexists. }
  exists msg. cbv zeta. split; [done|]. split; [done|]. split; [done|].
  split; [|split].
  - unfold sync_gcp_buckets, mbind, M_bind. rewrite Hget. done.
  - rewrite invoke_run. unfold after_call, with_log. cbn [log].
    by rewrite <- app_assoc.
  - by rewrite invoke_run.
Qed.

Lemma sync_gcp_buckets_soft_failed_fetch_witness :
  (@sync_gcp_buckets reason_of_content example_database idle_collaborators
     (failing_storage "forbidden") "p1" 100
     (<["UPDATE_TAG" := VInt 100]> ∅) empty_world).2 = Ok tt.
Proof.
  destruct (@sync_gcp_buckets_soft_failed_fetch reason_of_content
              example_database idle_collaborators (failing_storage "forbidden")
              "p1" 100%Z (<["UPDATE_TAG" := VInt 100]> ∅)
              (MkHttpError "forbidden") empty_world eq_refl
              (or_introl eq_refl))
    as (msg & _ & _ & _ & Hsync & _ & Hres).
  rewrite Hsync, Hres. reflexivity.
Defined.

(* ===================================================================== *)
(** * Part III. Further properties of the two modules                      *)
(* ===================================================================== *)

(** The records of the end-to-end scenario are what the transformer
    returns on its response. *)
Lemma example_buckets_transformed :
  transform_gcp_buckets example_response = Ok example_buckets.
Proof.
  unfold example_buckets.
  destruct (transform_gcp_buckets example_response) as [records|e] eqn:E;
    [reflexivity|].
  apply (f_equal is_ok) in E. vm_compute in E. discriminate E.
Qed.

Lemma example_buckets_second :
  ∃ r, example_buckets !! 1 = Some r
       ∧ r !! "project_number" = Some (VStr "p1")
       ∧ r !! "id" = Some (VStr "b2").
Proof.
  assert (Hpn : example_buckets !! 1 ≫= (.!! "project_number")
                = Some (VStr "p1")) by (vm_compute; reflexivity).
  assert (Hid : example_buckets !! 1 ≫= (.!! "id") = Some (VStr "b2"))
    by (vm_compute; reflexivity).
  destruct (example_buckets !! 1) as [r|]; [|discriminate Hpn].
  exists r. split; [done|]. split; [exact Hpn | exact Hid].
Qed.

(** ** The bucket transformer beyond its defaults *)

Lemma py_get_chain d k k' dflt v p :
  py_get (VDict d) k (VDict []) = Ok p → py_get p k' dflt = Ok v →
  object_or_absent k d = true ∧ p = VDict (nested k d).
Proof.
  simpl. intros [= <-]. unfold object_or_absent, nested.
  destruct (dict_get k d) as [[]|]; simpl; try discriminate; auto.
Qed.

Lemma py_get_items_chain d k kvs p :
  py_get (VDict d) k (VDict []) = Ok p → py_items p = Ok kvs →
  object_or_absent k d = true ∧ kvs = nested k d.
Proof.
  simpl. intros [= <-]. unfold object_or_absent, nested.
  destruct (dict_get k d) as [[]|]; simpl; try discriminate;
    intros [= <-]; auto.
Qed.

Lemma py_getitem_dict_Ok d k v :
  py_getitem (VDict d) k = Ok v → dict_get k d = Some v.
Proof. simpl. by destruct (dict_get k d); intros [= <-]. Qed.

Lemma transform_gcp_bucket_shape b r :
  transform_gcp_bucket b = Ok r → bucket_item b = true.
Proof.
  unfold transform_gcp_bucket. intros H. bind_inv H. clear H.
  destruct b as [| | | | | |d]; try discriminate.
  repeat match goal with
         | H1 : py_get (VDict ?d') ?k (VDict []) = Ok ?p,
           H2 : py_get ?p _ _ = Ok _ |- _ =>
             let Ho := fresh "Ho" in
             destruct (py_get_chain _ _ _ _ _ _ H1 H2) as [Ho ->]; clear H1
         | H1 : py_get (VDict ?d') ?k (VDict []) = Ok ?p,
           H2 : py_items ?p = Ok _ |- _ =>
             let Ho := fresh "Ho" in
             destruct (py_get_items_chain _ _ _ _ H1 H2) as [Ho ->];
             clear H1 H2
         | H1 : py_getitem (VDict ?d') _ = Ok _ |- _ =>
             apply py_getitem_dict_Ok in H1
         end.
  simpl. rewrite !andb_true_iff, !bool_decide_eq_true.
  repeat split; eauto.
Qed.

(** X1. [transform_gcp_buckets] returns (rather than raises) exactly when
    the response is an object whose [items], the empty list when absent,
    can be iterated and holds only bucket items: objects carrying [id] and
    [projectNumber] whose structured optional fields are objects wherever
    they are present. *)
Theorem transform_gcp_buckets_returns_iff (bucket_res : pyval) :
  is_ok (transform_gcp_buckets bucket_res) = true
  ↔ ∃ items, (py_get bucket_res "items" (VList []) ≫= py_iter) = Ok items
             ∧ Forall (λ b, bucket_item b = true) items.
Proof.
  unfold transform_gcp_buckets. split.
  - destruct (py_get bucket_res "items" (VList [])) as [v|];
      cbn [mbind result_bind]; [|discriminate].
    destruct (py_iter v) as [items|]; cbn [mbind result_bind];
      [|discriminate].
    destruct (for_each transform_gcp_bucket items) as [records|] eqn:E;
      [|discriminate].
    intros _. exists items. split; [done|].
    apply for_each_inv in E. induction E as [|b r items records Hb _ IH];
      constructor; [|done].
    by eapply transform_gcp_bucket_shape.
  - intros (items & E & Hall).
    destruct (py_get bucket_res "items" (VList [])) as [v|];
      cbn [mbind result_bind] in *; [|discriminate].
    rewrite E. cbn [mbind result_bind].
    destruct (for_each_Forall2 transform_gcp_bucket (λ _ _, True) items)
      as (records & -> & _); [|done].
    eapply Forall_impl; [exact Hall|]. intros b Hb.
    destruct (transform_gcp_bucket_item b Hb) as (r & -> & _). eauto.
Qed.

Lemma py_get_Raise o k dflt e : py_get o k dflt = Raise e → e = AttributeError.
Proof. destruct o; simpl; congruence. Qed.

Lemma py_items_Raise o e : py_items o = Raise e → e = AttributeError.
Proof. destruct o; simpl; congruence. Qed.

Lemma py_getitem_dict_Raise d k e :
  py_getitem (VDict d) k = Raise e → e = KeyError k.
Proof. simpl. by destruct (dict_get k d); intros [= <-]. Qed.

Lemma py_iter_Raise o e : py_iter o = Raise e → e = TypeError.
Proof. destruct o; simpl; congruence. Qed.

Lemma for_each_Raise {A B} (f : A → result B) l e :
  for_each f l = Raise e → ∃ x, x ∈ l ∧ f x = Raise e.
Proof.
  induction l as [|x l IH]; simpl; [done|].
  destruct (f x) as [y|e'] eqn:Ex; cbn [mbind result_bind].
  - destruct (for_each f l) as [ys|e'']; cbn [mbind result_bind];
      [done|].
    intros [= <-]. destruct IH as (x' & Hin & Hx'); [done|].
    exists x'. split; [by apply list_elem_of_further | done].
  - intros [= <-]. exists x. split; [apply list_elem_of_here | done].
Qed.

Lemma transform_gcp_bucket_Raise b e :
  transform_gcp_bucket b = Raise e →
  e = AttributeError ∨ e = KeyError "id" ∨ e = KeyError "projectNumber".
Proof.
  unfold transform_gcp_bucket. intros H.
  repeat match type of H with
         | mbind _ ?m = Raise _ =>
             let E := fresh "E" in
             destruct m eqn:E; cbn [mbind result_bind] in H;
             [|injection H as ->;
               first [ apply py_get_Raise in E; by left
                     | apply py_items_Raise in E; by left
                     | idtac ]]
         end; [discriminate|..].
  all: match goal with
       | E0 : py_get ?b _ _ = Ok _, E : py_getitem ?b _ = Raise _ |- _ =>
           destruct b; try discriminate E0;
           apply py_getitem_dict_Raise in E
       end.
  all: subst; auto.
Qed.

(** X2. The only exceptions [transform_gcp_buckets] raises are
    [AttributeError] (the response, an item or a structured field is not
    an object), [TypeError] ([items] cannot be iterated) and [KeyError]
    for one of the two mandatory fields [id] and [projectNumber]. *)
Theorem transform_gcp_buckets_raises_only (bucket_res : pyval) (e : exn) :
  transform_gcp_buckets bucket_res = Raise e →
  e = AttributeError ∨ e = TypeError
  ∨ e = KeyError "id" ∨ e = KeyError "projectNumber".
Proof.
  unfold transform_gcp_buckets.
  destruct (py_get bucket_res "items" (VList [])) as [v|e0] eqn:E0;
    cbn [mbind result_bind].
  - destruct (py_iter v) as [items|e1] eqn:E1; cbn [mbind result_bind].
    + intros (b & _ & Hb)%for_each_Raise.
      apply transform_gcp_bucket_Raise in Hb. tauto.
    + intros [= <-]. apply py_iter_Raise in E1. auto.
  - intros [= <-]. apply py_get_Raise in E0. auto.
Qed.

Lemma transform_gcp_buckets_raises_only_witness :
  KeyError "id" = AttributeError ∨ KeyError "id" = TypeError
  ∨ KeyError "id" = KeyError "id" ∨ KeyError "id" = KeyError "projectNumber".
Proof.
  apply (transform_gcp_buckets_raises_only
           (VDict [("items", VList [VDict [("projectNumber", VStr "p1")]])])
           (KeyError "id")).
  vm_compute. reflexivity.
Defined.

Lemma transform_gcp_bucket_fields d r :
  transform_gcp_bucket (VDict d) = Ok r →
  r !! "id" = dict_get "id" d
  ∧ r !! "project_number" = dict_get "projectNumber" d
  ∧ (∀ f k, (f, k) ∈ scalar_fields →
            r !! k = Some (default VNone (dict_get f d)))
  ∧ (∀ o i k, (o, i, k) ∈ nested_fields →
              r !! k = Some (default VNone (dict_get i (nested o d))))
  ∧ r !! "iam_config_bucket_policy_only"
    = Some (default VNone
              (dict_get "enabled"
                 (nested "bucketPolicyOnly" (nested "iamConfiguration" d))))
  ∧ r !! "labels"
    = Some (VList ((λ kv, VTuple [VStr kv.1; kv.2]) <$> nested "labels" d)).
Proof.
  intros H. pose proof (transform_gcp_bucket_shape _ _ H) as Hb.
  revert H. simpl in Hb. revert Hb.
  rewrite !andb_true_iff, !bool_decide_eq_true.
  intros [[[[vid Hid] [vpn Hpn]]
           (Hic & Hlb & How & Hve & Hrp & Hen & Hlg & Hbi & _)] Hbpo].
  unfold transform_gcp_bucket.
  rewrite !(py_get_nested "iamConfiguration") by done.
  rewrite !(py_get_nested "labels") by done.
  rewrite !(py_get_nested "owner") by done.
  rewrite !(py_get_nested "versioning") by done.
  rewrite !(py_get_nested "retentionPolicy") by done.
  rewrite !(py_get_nested "encryption") by done.
  rewrite !(py_get_nested "logging") by done.
  rewrite !(py_get_nested "billing") by done.
  cbn [mbind result_bind].
  rewrite (py_get_nested "bucketPolicyOnly") by done.
  cbn [mbind result_bind py_get py_getitem py_items].
  rewrite Hid, Hpn.
  cbn [mbind result_bind].
  intros <-%Ok_inj.
  split; [by simplify_map_eq|]. split; [by simplify_map_eq|].
  split; [|split; [|split]].
  - intros f k Hin. unfold scalar_fields in Hin.
    repeat (apply elem_of_cons in Hin as [Hin|Hin]);
      try (by apply elem_of_nil in Hin);
      injection Hin as -> ->; by simplify_map_eq.
  - intros o i k Hin. unfold nested_fields in Hin.
    repeat (apply elem_of_cons in Hin as [Hin|Hin]);
      try (by apply elem_of_nil in Hin);
      injection Hin as -> -> ->; by simplify_map_eq.
  - by simplify_map_eq.
  - by simplify_map_eq.
Qed.

(** X3. Whenever [transform_gcp_buckets] returns, it returns one record
    per item, in the order of the response, and each record is a copy of
    its item: [id] and [projectNumber] as they are; every plain optional
    field and every field of a structured optional field as it is, or
    [None] when it is absent; the labels as the list of their
    [(key, val)] pairs in the order of the object. *)
Theorem transform_gcp_buckets_copies_fields
    (bucket_res : pyval) (records : list record) :
  transform_gcp_buckets bucket_res = Ok records →
  ∃ items,
    (py_get bucket_res "items" (VList []) ≫= py_iter) = Ok (VDict <$> items)
    ∧ Forall2 (λ d r,
         r !! "id" = dict_get "id" d
         ∧ r !! "project_number" = dict_get "projectNumber" d
         ∧ (∀ f k, (f, k) ∈ scalar_fields →
                   r !! k = Some (default VNone (dict_get f d)))
         ∧ (∀ o i k, (o, i, k) ∈ nested_fields →
                     r !! k = Some (default VNone (dict_get i (nested o d))))
         ∧ r !! "iam_config_bucket_policy_only"
           = Some (default VNone
                     (dict_get "enabled"
                        (nested "bucketPolicyOnly"
                           (nested "iamConfiguration" d))))
         ∧ r !! "labels"
           = Some (VList ((λ kv, VTuple [VStr kv.1; kv.2])
                            <$> nested "labels" d)))
        items records.
Proof.
  unfold transform_gcp_buckets. intros H. bind_inv H.
  apply for_each_inv in H. cbn [mbind result_bind].
  rewrite E0. clear E E0.
  induction H as [|b r bs records Hb _ (items & Hi & IH)].
  - exists []. split; [done | constructor].
  - pose proof (transform_gcp_bucket_shape _ _ Hb) as Hs.
    destruct b as [| | | | | |d]; try discriminate Hs.
    exists (d :: items). split; [by rewrite fmap_cons, (Ok_inj _ _ Hi)|].
    constructor; [|done]. by apply transform_gcp_bucket_fields.
Qed.

Lemma transform_gcp_buckets_copies_fields_witness :
  ∃ items,
    (py_get example_response "items" (VList []) ≫= py_iter)
    = Ok (VDict <$> items)
    ∧ length items = 2.
Proof.
  destruct (transform_gcp_buckets_copies_fields example_response
              example_buckets) as (items & Hi & Hf).
  - exact example_buckets_transformed.
  - exists items. split; [exact Hi|].
    rewrite (Forall2_length _ _ _ Hf). vm_compute. reflexivity.
Defined.

Lemma split_on_nonempty sep s : split_on sep s ≠ [].
Proof.
  induction s as [|c s IH]; simpl; [done|].
  case_decide; [done|]. by destruct (split_on sep s).
Qed.

(** X4. The outcome of [transform_gcp_bucket_iam_policy] on every input:
    [None] when the policy is an object whose [resourceId] is a string
    (splitting a string never gives an empty list, so taking the last
    segment cannot fail); [AttributeError] when [resourceId] is not a
    string; [KeyError] when the object has no [resourceId]; [TypeError]
    when the policy is not an object, as for the [None] that
    [get_gcp_bucket_iam_policy] returns after a soft failure. *)
Theorem transform_gcp_bucket_iam_policy_outcome (iam_res : pyval) :
  transform_gcp_bucket_iam_policy iam_res
  = match iam_res with
    | VDict d =>
        match dict_get "resourceId" d with
        | Some (VStr _) => Ok VNone
        | Some _ => Raise AttributeError
        | None => Raise (KeyError "resourceId")
        end
    | _ => Raise TypeError
    end.
Proof.
  unfold transform_gcp_bucket_iam_policy.
  destruct iam_res as [| | | | | |d]; try done. simpl.
  destruct (dict_get "resourceId" d) as [[| | |s| | |]|]; try done.
  simpl. unfold py_last.
  destruct (last (split_on "/" s)) eqn:E; [done|].
  apply last_None in E. by apply split_on_nonempty in E.
Qed.

(** ** The loader beyond idempotence *)

Section LoadOutcome.
Context `{Database}.

Lemma load_app buckets1 buckets2 t :
  load_outcome buckets1 t = Ok tt →
  load_outcome (buckets1 ++ buckets2) t = load_outcome buckets2 t
  ∧ accepted (buckets1 ++ buckets2) t
    = accepted buckets1 t ++ accepted buckets2 t
  ∧ queries_sent (buckets1 ++ buckets2) t
    = queries_sent buckets1 t + queries_sent buckets2 t.
Proof.
  induction buckets1 as [|r buckets1 IH]; simpl; intros E; [done|].
  destruct (query_args r t) as [q|]; [|done].
  destruct (refusal q); [done|].
  destruct (IH E) as (-> & -> & ->). done.
Qed.

Lemma load_failing_head bad post t e :
  load_outcome [bad] t = Raise e →
  load_outcome (bad :: post) t = Raise e
  ∧ accepted (bad :: post) t = []
  ∧ queries_sent (bad :: post) t = queries_sent [bad] t.
Proof.
  simpl. destruct (query_args bad t) as [q|]; [|done].
  by destruct (refusal q).
Qed.

Lemma load_outcome_Raise buckets t e :
  load_outcome buckets t = Raise e →
  ∃ r, r ∈ buckets
       ∧ (query_args r t = Raise e
          ∨ ∃ q, query_args r t = Ok q ∧ refusal q = Some e).
Proof.
  induction buckets as [|r buckets IH]; simpl; [done|].
  destruct (query_args r t) as [q|e'] eqn:Eq.
  - destruct (refusal q) as [e'|] eqn:Er.
    + intros [= <-]. exists r. split; [apply list_elem_of_here|]. eauto.
    + intros (r' & Hin & Hr')%IH. exists r'.
      split; [by apply list_elem_of_further | done].
  - intros [= <-]. exists r. split; [apply list_elem_of_here|]. eauto.
Qed.

Lemma accepted_all buckets t :
  load_outcome buckets t = Ok tt →
  Forall (λ r, ∃ q, query_args r t = Ok q ∧ q ∈ accepted buckets t) buckets.
Proof.
  induction buckets as [|r buckets IH]; simpl; [constructor|].
  destruct (query_args r t) as [q|] eqn:Eq; [|done].
  destruct (refusal q); [done|]. intros E. constructor.
  - exists q. split; [done | apply list_elem_of_here].
  - eapply Forall_impl; [exact (IH E)|]. intros r' (q' & ? & ?).
    exists q'. split; [done | by apply list_elem_of_further].
Qed.

Lemma queries_sent_le buckets t :
  length (accepted buckets t) ≤ queries_sent buckets t
  ∧ queries_sent buckets t ≤ length buckets
  ∧ (load_outcome buckets t = Ok tt →
     queries_sent buckets t = length buckets).
Proof.
  induction buckets as [|r buckets (IH1 & IH2 & IH3)]; simpl; [done|].
  destruct (query_args r t) as [q|]; simpl;
    [|split; [lia|split; [lia|done]]].
  destruct (refusal q); simpl; [split; [lia|split; [lia|done]]|].
  split; [lia|]. split; [lia|]. intros E. by rewrite IH3.
Qed.
End LoadOutcome.

(** X5. [load_gcp_buckets] stops at the first record that raises, be it
    a missing key or a query the database refuses: the call raises that
    exception, what the earlier records wrote stays in the graph, and the
    records after the failing one are never looked at. *)
Theorem load_gcp_buckets_stops_at_first_failure `{Database}
    (pre : list record) (bad : record) (post : list record)
    (gcp_update_tag : Z) (e : exn) (w w0 : world) :
  (load_gcp_buckets pre gcp_update_tag w).2 = Ok tt →
  (load_gcp_buckets [bad] gcp_update_tag w0).2 = Raise e →
  let run := load_gcp_buckets (pre ++ bad :: post) gcp_update_tag w in
  run.2 = Raise e
  ∧ db run.1 = db (load_gcp_buckets pre gcp_update_tag w).1
  ∧ run = load_gcp_buckets (pre ++ [bad]) gcp_update_tag w.
Proof.
  rewrite !load_gcp_buckets_run. cbn [fst snd db]. intros Hpre Hbad.
  destruct (load_app pre (bad :: post) gcp_update_tag Hpre)
    as (-> & -> & ->).
  destruct (load_app pre [bad] gcp_update_tag Hpre) as (-> & -> & ->).
  destruct (load_failing_head bad post gcp_update_tag e Hbad)
    as (-> & -> & ->).
  destruct (load_failing_head bad [] gcp_update_tag e Hbad)
    as (_ & -> & _).
  rewrite Hbad, app_nil_r. done.
Qed.

Lemma load_gcp_buckets_stops_at_first_failure_witness :
  let run :=
    load_gcp_buckets (H := example_database)
      (example_buckets ++ (∅ : record) :: example_buckets) 100 empty_world in
  run.2 = Raise (KeyError "project_number")
  ∧ db run.1
    = db (load_gcp_buckets (H := example_database) example_buckets 100
            empty_world).1.
Proof.
  intros run.
  destruct (load_gcp_buckets_stops_at_first_failure (H := example_database)
              example_buckets ∅ example_buckets 100
              (KeyError "project_number") empty_world empty_world)
    as (H1 & H2 & _).
  - vm_compute. reflexivity.
  - vm_compute. reflexivity.
  - split; [exact H1 | exact H2].
Defined.

Lemma query_args_fields r t q :
  query_args r t = Ok q →
  r !! "project_number" = Some (ProjectNumber q)
  ∧ r !! "id" = Some (BucketId q).
Proof.
  unfold query_args, rec_getitem. intros E.
  destruct (r !! "project_number") as [pn|]; [|done].
  destruct (r !! "id") as [bid|]; [|done].
  cbn [mbind result_bind] in E. bind_inv E. apply Ok_inj in E. by subst q.
Qed.

Lemma query_args_total r t :
  (∀ k, k ∈ loaded_keys → is_Some (r !! k)) → ∃ q, query_args r t = Ok q.
Proof.
  intros Hk. unfold query_args, rec_getitem.
  repeat match goal with
         | |- context [r !! ?k] =>
             let v := fresh "v" in let E := fresh "E" in
             destruct (Hk k) as [v E];
             [unfold loaded_keys; rewrite list_elem_of_In; simpl; tauto|];
             rewrite E; clear E
         end.
  cbn [mbind result_bind]. eauto.
Qed.

Lemma loaded_keys_normalized k : k ∈ loaded_keys → k ∈ normalized_keys.
Proof.
  intros Hk. unfold normalized_keys. apply elem_of_list_to_set.
  unfold loaded_keys in Hk. rewrite list_elem_of_In in *. simpl in *.
  tauto.
Qed.

(** X6. Every record [transform_gcp_buckets] returns has all the keys
    [load_gcp_buckets] reads and carries the item's [id] and
    [projectNumber] into the query as [BucketId] and [ProjectNumber].
    Loading the transformer's output therefore never fails on a missing
    key: it raises only when the database refuses a query. *)
Theorem load_of_transform_raises_only_refusals `{Database}
    (bucket_res : pyval) (records : list record) (gcp_update_tag : Z) :
  transform_gcp_buckets bucket_res = Ok records →
  Forall (λ r, ∃ q, query_args r gcp_update_tag = Ok q
                    ∧ r !! "id" = Some (BucketId q)
                    ∧ r !! "project_number" = Some (ProjectNumber q)
                    ∧ UpdateTag q = gcp_update_tag) records
  ∧ ∀ w e, (load_gcp_buckets records gcp_update_tag w).2 = Raise e →
           ∃ r q, r ∈ records ∧ query_args r gcp_update_tag = Ok q
                  ∧ refusal q = Some e.
Proof.
  intros Ht.
  assert (Hall : Forall (λ r, ∃ q, query_args r gcp_update_tag = Ok q)
                   records).
  { unfold transform_gcp_buckets in Ht. bind_inv Ht.
    apply for_each_inv in Ht. clear E E0.
    induction Ht as [|b r bs records Hb _ IH]; constructor; [|done].
    pose proof (transform_gcp_bucket_shape _ _ Hb) as Hs.
    destruct (transform_gcp_bucket_item b Hs) as (r' & Hr' & Hdom & _).
    rewrite Hb in Hr'. apply Ok_inj in Hr'. subst r'.
    apply query_args_total. intros k Hk%loaded_keys_normalized.
    apply elem_of_dom. by rewrite Hdom. }
  split.
  - eapply Forall_impl; [exact Hall|]. intros r (q & Hq). exists q.
    destruct (query_args_fields _ _ _ Hq) as [? ?].
    split; [done|]. split; [done|]. split; [done|].
    by eapply query_args_tag.
  - intros w e. rewrite load_gcp_buckets_run. cbn [snd].
    intros (r & Hin & [Hr|(q & Hq & Hr)])%load_outcome_Raise.
    + rewrite Forall_forall in Hall. destruct (Hall r Hin) as (q & Hq).
      congruence.
    + eauto.
Qed.

Lemma load_of_transform_raises_only_refusals_witness :
  Forall (λ r, ∃ q, query_args r 100 = Ok q
                    ∧ r !! "id" = Some (BucketId q)
                    ∧ r !! "project_number" = Some (ProjectNumber q)
                    ∧ UpdateTag q = 100%Z) example_buckets.
Proof.
  apply (load_of_transform_raises_only_refusals (H := example_database)
           example_response example_buckets 100).
  exact example_buckets_transformed.
Defined.

(** X7. After a load that returns, the pattern of every record is in the
    graph: a [GCPProject] node keyed by the record's [project_number], a
    [GCPBucket] node keyed by its [id], and a [RESOURCE] relationship from
    every such project node to every such bucket node. *)
Theorem load_gcp_buckets_creates_pattern `{Database}
    (buckets : list record) (gcp_update_tag : Z) (w : world)
    (r : record) (pn bid : pyval) :
  (load_gcp_buckets buckets gcp_update_tag w).2 = Ok tt →
  r ∈ buckets → r !! "project_number" = Some pn → r !! "id" = Some bid →
  let g := db (load_gcp_buckets buckets gcp_update_tag w).1 in
  (∃ n, n ∈ nodes g ∧ node_matches "GCPProject" "projectnumber" pn n = true)
  ∧ (∃ n, n ∈ nodes g ∧ node_matches "GCPBucket" "id" bid n = true)
  ∧ ∀ s t ns nt,
      nodes g !! s = Some ns → nodes g !! t = Some nt →
      node_matches "GCPProject" "projectnumber" pn ns = true →
      node_matches "GCPBucket" "id" bid nt = true →
      ∃ e, e ∈ edges g ∧ src e = s ∧ tgt e = t ∧ rtype e = "RESOURCE".
Proof.
  rewrite load_gcp_buckets_run. cbn [fst snd db]. intros Hok Hr Hpn Hbid.
  pose proof (accepted_all buckets gcp_update_tag Hok) as Hall.
  rewrite Forall_forall in Hall. destruct (Hall r Hr) as (q & Hq & Hin).
  destruct (query_args_fields _ _ _ Hq) as [Hpn' Hbid'].
  assert (pn = ProjectNumber q) as -> by congruence.
  assert (bid = BucketId q) as -> by congruence.
  pose proof (covered_ingest_all timestamp (ticks w)
                (accepted buckets gcp_update_tag) (db w)) as Hcov.
  rewrite Forall_forall in Hcov. destruct (Hcov q Hin) as (Hp & Hb & He).
  cbv zeta. split; [by apply existsb_true in Hp|].
  split; [by apply existsb_true in Hb|].
  intros s t ns nt Hs Ht Hms Hmt.
  assert (Hrow : (s, t) ∈ rows q (nodes (ingest_all timestamp (ticks w)
                    (accepted buckets gcp_update_tag) (db w)))).
  { unfold rows. rewrite list_elem_of_In. apply in_prod_iff.
    rewrite <- !list_elem_of_In. split; apply elem_of_positions.
    - exists ns. rewrite Nat.sub_0_r. split; [lia|done].
    - exists nt. rewrite Nat.sub_0_r. split; [lia|done]. }
  apply He, existsb_true in Hrow as (e & Hein & Hm). exists e.
  unfold edge_matches in Hm.
  rewrite !andb_true_iff, !bool_decide_eq_true in Hm. tauto.
Qed.

Lemma load_gcp_buckets_creates_pattern_witness :
  let g := db (load_gcp_buckets (H := example_database) example_buckets 100
                 empty_world).1 in
  ∃ n, n ∈ nodes g
       ∧ node_matches "GCPBucket" "id" (VStr "b2") n = true.
Proof.
  intros g. destruct example_buckets_second as (r & Hr & Hpn & Hid).
  apply (load_gcp_buckets_creates_pattern (H := example_database)
           example_buckets 100 empty_world r (VStr "p1") (VStr "b2")).
  - vm_compute. reflexivity.
  - by eapply list_elem_of_lookup_2.
  - exact Hpn.
  - exact Hid.
Defined.

Lemma query_args_ext r r' t :
  Forall (λ k, r !! k = r' !! k) loaded_keys →
  query_args r t = query_args r' t.
Proof.
  intros Hk. unfold loaded_keys in Hk.
  repeat match type of Hk with
         | Forall _ (_ :: _) =>
             let E := fresh "E" in apply Forall_cons in Hk as [E Hk]
         end.
  unfold query_args, rec_getitem. by repeat match goal with
         | E : r !! _ = _ |- _ => rewrite E; clear E
         end.
Qed.

(** X8. [load_gcp_buckets] depends on the eighteen keys of a record it
    passes to the query and on nothing else: two lists of records that
    agree on these keys are loaded alike.  What the transformer stores
    under [etag], [updated] and [default_event_based_hold] never reaches
    the graph. *)
Theorem load_gcp_buckets_reads_loaded_keys `{Database}
    (buckets buckets' : list record) (gcp_update_tag : Z) (w : world) :
  Forall2 (λ r r', Forall (λ k, r !! k = r' !! k) loaded_keys)
    buckets buckets' →
  load_gcp_buckets buckets gcp_update_tag w
  = load_gcp_buckets buckets' gcp_update_tag w.
Proof.
  intros Hall. revert w.
  induction Hall as [|r r' buckets buckets' Hr _ IH]; intros w; [done|].
  cbn [load_gcp_buckets]. rewrite (query_args_ext r r') by done.
  unfold mbind, M_bind, lift.
  destruct (query_args r' gcp_update_tag) as [q|]; [|done].
  destruct (session_run q w) as [w1 [[]|]]; [|done]. apply IH.
Qed.

Lemma load_gcp_buckets_reads_loaded_keys_witness :
  load_gcp_buckets (H := example_database) example_buckets 100 empty_world
  = load_gcp_buckets (H := example_database)
      ((λ r : record,
          <["etag" := VStr "x"]> (delete "updated" r)) <$> example_buckets)
      100 empty_world.
Proof.
  apply (load_gcp_buckets_reads_loaded_keys (H := example_database)).
  refine (bool_decide_unpack _ _). vm_compute. exact I.
Defined.

Lemma length_nodes_ingest now q g :
  length (nodes g) ≤ length (nodes (ingest now q g))
  ∧ length (nodes (ingest now q g)) ≤ length (nodes g) + 2
  ∧ length (edges g) ≤ length (edges (ingest now q g)).
Proof.
  rewrite nodes_ingest, edges_ingest, !length_fmap.
  destruct (create_edges_app now (rows q (create_nodes now q (nodes g)))
              (edges g)) as (tail & -> & _).
  unfold create_nodes. rewrite !add_missing_app, !length_app.
  repeat match goal with |- context [existsb ?p ?l] => destruct (existsb p l) end;
    simpl; lia.
Qed.

Lemma length_nodes_ingest_all clock i qs g :
  length (nodes g) ≤ length (nodes (ingest_all clock i qs g))
  ∧ length (nodes (ingest_all clock i qs g))
    ≤ length (nodes g) + 2 * length qs
  ∧ length (edges g) ≤ length (edges (ingest_all clock i qs g)).
Proof.
  revert i g. induction qs as [|q qs IH]; intros i g; simpl; [lia|].
  pose proof (length_nodes_ingest (clock i) q g).
  pose proof (IH (S i) (ingest (clock i) q g)). lia.
Qed.

(** X9. [load_gcp_buckets] runs one query per record, in order, until it
    returns or raises: at most as many queries as there are records, and
    exactly that many when it returns.  It never removes a node or a
    relationship, adds at most two nodes per record, and leaves the log
    and the Okta sync state alone. *)
Theorem load_gcp_buckets_frame `{Database}
    (buckets : list record) (gcp_update_tag : Z) (w : world) :
  let run := load_gcp_buckets buckets gcp_update_tag w in
  log run.1 = log w
  ∧ sync_state run.1 = sync_state w
  ∧ ticks w ≤ ticks run.1 ≤ ticks w + length buckets
  ∧ (run.2 = Ok tt → ticks run.1 = ticks w + length buckets)
  ∧ length (nodes (db w)) ≤ length (nodes (db run.1))
    ≤ length (nodes (db w)) + 2 * length buckets
  ∧ length (edges (db w)) ≤ length (edges (db run.1)).
Proof.
  rewrite load_gcp_buckets_run. cbn [fst snd db sync_state ticks log].
  destruct (queries_sent_le buckets gcp_update_tag) as (Ha & Hq & Hok).
  pose proof (length_nodes_ingest_all timestamp (ticks w)
                (accepted buckets gcp_update_tag) (db w)) as (Hn1 & Hn2 & He).
  repeat split; try done; try lia. intros E. by rewrite Hok.
Qed.

Lemma accepted_inv `{Database} buckets t q :
  q ∈ accepted buckets t →
  ∃ r, r ∈ buckets ∧ query_args r t = Ok q ∧ refusal q = None.
Proof.
  induction buckets as [|r buckets IH]; simpl; [by intros ?%elem_of_nil|].
  destruct (query_args r t) as [q'|] eqn:Eq; [|by intros ?%elem_of_nil].
  destruct (refusal q') eqn:Er; [by intros ?%elem_of_nil|].
  intros [->|Hin]%elem_of_cons.
  - exists r. split; [apply list_elem_of_here | done].
  - destruct (IH Hin) as (r' & ? & ?). exists r'.
    split; [by apply list_elem_of_further | done].
Qed.

Lemma refusal_None_mergeable `{Database} q :
  refusal q = None → ProjectNumber q ≠ VNone ∧ BucketId q ≠ VNone.
Proof.
  unfold refusal, mergeable. destruct (type_error q); [done|].
  case_bool_decide; [done|discriminate].
Qed.

Lemma ingest_all_created clock i qs g k n :
  nodes (ingest_all clock i qs g) !! k = Some n → length (nodes g) ≤ k →
  ∃ j q, i ≤ j < i + length qs ∧ q ∈ qs
         ∧ (node_agree mutable_keys n (new_project (clock j) q)
            ∨ node_agree mutable_keys n (new_bucket (clock j) q)).
Proof.
  revert i g. induction qs as [|q qs IH]; intros i g; simpl.
  - intros Hk%lookup_lt_Some Hle. lia.
  - intros Hk Hle.
    destruct (decide (k < length (nodes (ingest (clock i) q g))))
      as [Hlt|Hge].
    + destruct (lookup_lt_is_Some_2 _ _ Hlt) as [n0 Hn0].
      destruct (ingest_all_in_place clock (S i) qs (ingest (clock i) q g))
        as [Hn _].
      destruct (Hn k n0 Hn0) as (n' & Hn' & Ha).
      rewrite Hk in Hn'. apply (inj Some) in Hn'. subst n'.
      rewrite nodes_ingest, list_lookup_fmap in Hn0.
      destruct (create_nodes_app (clock i) q (nodes g))
        as (tail & Ecr & Htail).
      rewrite Ecr, lookup_app_r in Hn0 by lia.
      destruct (tail !! (k - length (nodes g))) as [x|] eqn:Hx; [|done].
      simpl in Hn0. apply (inj Some) in Hn0. subst n0.
      exists i, q. split; [lia|]. split; [apply list_elem_of_here|].
      destruct (Htail x) as [->| ->]; [by eapply list_elem_of_lookup_2|..];
        [left|right]; (eapply node_agree_trans; [exact Ha|]);
        apply node_agree_upd_node_l.
    + destruct (IH (S i) _ Hk ltac:(lia)) as (j & q' & Hj & Hq' & Hag).
      exists j, q'. split; [lia|].
      split; [by apply list_elem_of_further | done].
Qed.

Lemma ingest_all_created_edge clock i qs g k e :
  edges (ingest_all clock i qs g) !! k = Some e → length (edges g) ≤ k →
  ∃ j s t, i ≤ j < i + length qs
           ∧ edge_agree ["lastupdated"] e (new_resource (clock j) s t).
Proof.
  revert i g. induction qs as [|q qs IH]; intros i g; simpl.
  - intros Hk%lookup_lt_Some Hle. lia.
  - intros Hk Hle.
    destruct (decide (k < length (edges (ingest (clock i) q g))))
      as [Hlt|Hge].
    + destruct (lookup_lt_is_Some_2 _ _ Hlt) as [e0 He0].
      destruct (ingest_all_in_place clock (S i) qs (ingest (clock i) q g))
        as [_ He].
      destruct (He k e0 He0) as (e' & He' & Ha).
      rewrite Hk in He'. apply (inj Some) in He'. subst e'.
      rewrite edges_ingest, list_lookup_fmap in He0.
      destruct (create_edges_app (clock i)
                  (rows q (create_nodes (clock i) q (nodes g))) (edges g))
        as (tail & Ecr & Htail).
      rewrite Ecr, lookup_app_r in He0 by lia.
      destruct (tail !! (k - length (edges g))) as [x|] eqn:Hx; [|done].
      simpl in He0. apply (inj Some) in He0. subst e0.
      destruct (Htail x) as (s & t & _ & ->);
        [by eapply list_elem_of_lookup_2|].
      exists i, s, t. split; [lia|].
      eapply edge_agree_trans; [exact Ha|]. apply edge_agree_upd_edge_l.
    + destruct (IH (S i) _ Hk ltac:(lia)) as (j & s & t & Hj & Hag).
      exists j, s, t. split; [lia | done].
Qed.

Lemma key_not_mutable k :
  k ∈ ["firstseen"; "projectnumber"; "id"; "bucket_id"] → k ∉ mutable_keys.
Proof.
  unfold mutable_keys. rewrite !list_elem_of_In. simpl.
  intuition (subst; discriminate).
Qed.

(** X10. What a load creates.  A node that was not in the graph before is
    a [GCPProject] node keyed by the [project_number] of one of the
    records, or a [GCPBucket] node keyed by the [id] of one of the records
    and carrying the same value as [bucket_id]; a relationship that was
    not there before is a [RESOURCE] relationship.  Either carries as
    [firstseen] the database time of one of the queries of this load. *)
Theorem load_gcp_buckets_created `{Database}
    (buckets : list record) (gcp_update_tag : Z) (w : world) :
  let run := load_gcp_buckets buckets gcp_update_tag w in
  (∀ i n, nodes (db run.1) !! i = Some n → length (nodes (db w)) ≤ i →
      ∃ j r,
        ticks w ≤ j < ticks run.1 ∧ r ∈ buckets
        ∧ props n !! "firstseen" = Some (VInt (timestamp j))
        ∧ ((labels n = ["GCPProject"]
            ∧ props n !! "projectnumber" = r !! "project_number")
           ∨ (labels n = ["GCPBucket"]
              ∧ props n !! "id" = r !! "id"
              ∧ props n !! "bucket_id" = r !! "id")))
  ∧ (∀ i e, edges (db run.1) !! i = Some e → length (edges (db w)) ≤ i →
      ∃ j, ticks w ≤ j < ticks run.1
           ∧ rtype e = "RESOURCE"
           ∧ rprops e !! "firstseen" = Some (VInt (timestamp j))).
Proof.
  rewrite load_gcp_buckets_run. cbn [fst snd db ticks].
  destruct (queries_sent_le buckets gcp_update_tag) as (Hlen & _).
  split.
  - intros i n Hi Hle.
    destruct (ingest_all_created _ _ _ _ _ _ Hi Hle)
      as (j & q & Hj & Hq & Hag).
    destruct (accepted_inv _ _ _ Hq) as (r & Hr & Hargs & Href).
    destruct (query_args_fields _ _ _ Hargs) as [Er1 Er2].
    destruct (refusal_None_mergeable _ Href) as [Hpn Hbid].
    exists j, r. rewrite Er1, Er2. split; [lia|]. split; [done|].
    destruct Hag as [[Hl Hp]|[Hl Hp]].
    + split.
      { rewrite Hp by (apply key_not_mutable; rewrite list_elem_of_In;
                       simpl; tauto). done. }
      left. split; [done|].
      rewrite Hp by (apply key_not_mutable; rewrite list_elem_of_In;
                     simpl; tauto).
      unfold new_project, set_props. simpl.
      by rewrite lookup_insert_ne, lookup_singleton_eq.
    + assert (Hnew : props (new_bucket (timestamp j) q)
                     = <["bucket_id" := BucketId q]>
                         (<["firstseen" := VInt (timestamp j)]>
                            {["id" := BucketId q]})).
      { unfold new_bucket, set_props. simpl. unfold set_prop at 1.
        by destruct (BucketId q). }
      split.
      { rewrite Hp by (apply key_not_mutable; rewrite list_elem_of_In;
                       simpl; tauto).
        rewrite Hnew. by simplify_map_eq. }
      right. split; [done|].
      rewrite !Hp by (apply key_not_mutable; rewrite list_elem_of_In;
                      simpl; tauto).
      rewrite Hnew. by simplify_map_eq.
  - intros i e Hi Hle.
    destruct (ingest_all_created_edge _ _ _ _ _ _ Hi Hle)
      as (j & s & t & Hj & (_ & _ & Hr & Hp)).
    exists j. split; [lia|]. split; [done|].
    rewrite Hp by (by intros ?%list_elem_of_singleton). done.
Qed.

(** *** Keys stay unique *)

Lemma length_positions_add_missing {A} (p p' : A → bool) x l :
  (p' x = true → ∀ y, p' y = p y) →
  length (positions p' 0 l) ≤ 1 →
  length (positions p' 0 (add_missing p x l)) ≤ 1.
Proof.
  intros Hagree Hl. rewrite add_missing_app, positions_app, length_app.
  destruct (existsb p l) eqn:E; simpl; [lia|].
  destruct (p' x) eqn:Hx; simpl; [|lia].
  assert (positions p' 0 l = []) as ->; [|simpl; lia].
  apply positions_nil. rewrite (existsb_ext p' p); [done|].
  intros y _. by apply Hagree.
Qed.

Lemma unique_keys_queries g :
  unique_keys g
  ↔ (∀ q, length (positions (is_project q) 0 (nodes g)) ≤ 1)
    ∧ (∀ q, length (positions (is_bucket q) 0 (nodes g)) ≤ 1)
    ∧ ∀ s t, length (positions (edge_matches s t "RESOURCE") 0 (edges g)) ≤ 1.
Proof.
  unfold unique_keys. split; intros (Hp & Hb & He).
  - split; [|split; [|done]]; intros q; [apply Hp | apply Hb].
  - split; [|split; [|done]]; intros v.
    + apply (Hp (QueryParams v VNone VNone VNone VNone VNone VNone VNone
                   VNone VNone VNone VNone VNone VNone VNone VNone VNone
                   VNone 0)).
    + apply (Hb (QueryParams VNone v VNone VNone VNone VNone VNone VNone
                   VNone VNone VNone VNone VNone VNone VNone VNone VNone
                   VNone 0)).
Qed.

Lemma create_edges_unique now rws es s t :
  length (positions (edge_matches s t "RESOURCE") 0 es) ≤ 1 →
  length (positions (edge_matches s t "RESOURCE") 0
            (create_edges now rws es)) ≤ 1.
Proof.
  revert es. induction rws as [|[s0 t0] rws IH]; intros es Hes; [done|].
  simpl. apply IH, length_positions_add_missing; [|done].
  intros [-> ->]%edge_matches_new_resource. done.
Qed.

Lemma unique_keys_ingest now q g :
  unique_keys g → unique_keys (ingest now q g).
Proof.
  rewrite !unique_keys_queries. intros (Hp & Hb & He).
  rewrite nodes_ingest, edges_ingest. split; [|split].
  - intros q'. rewrite positions_upd_nodes_project. unfold create_nodes.
    apply length_positions_add_missing.
    { by rewrite is_project_new_bucket. }
    apply length_positions_add_missing; [|done].
    intros Hm%is_project_new_project_inv y. by apply is_project_same_key.
  - intros q'. rewrite positions_upd_nodes_bucket. unfold create_nodes.
    apply length_positions_add_missing.
    { intros Hm%is_bucket_new_bucket_inv y. by apply is_bucket_same_key. }
    apply length_positions_add_missing; [|done].
    by rewrite is_bucket_new_project.
  - intros s t. rewrite positions_fmap.
    rewrite (positions_ext _ (edge_matches s t "RESOURCE")).
    + by apply create_edges_unique.
    + intros e _. apply edge_matches_upd_edge.
Qed.

Lemma unique_keys_ingest_all clock i qs g :
  unique_keys g → unique_keys (ingest_all clock i qs g).
Proof.
  revert i g. induction qs as [|q qs IH]; intros i g Hg; [done|].
  simpl. by apply IH, unique_keys_ingest.
Qed.

(** X11. [load_gcp_buckets] keeps keys unique: on a graph where no two
    [GCPProject] nodes share a [projectnumber], no two [GCPBucket] nodes
    share an [id] and no two [RESOURCE] relationships share both end
    points, it leaves a graph with the same property, whatever the
    records and whether it returns or raises. *)
Theorem load_gcp_buckets_keeps_keys_unique `{Database}
    (buckets : list record) (gcp_update_tag : Z) (w : world) :
  unique_keys (db w) →
  unique_keys (db (load_gcp_buckets buckets gcp_update_tag w).1).
Proof.
  rewrite load_gcp_buckets_run. cbn [fst db]. apply unique_keys_ingest_all.
Qed.

Lemma load_gcp_buckets_keeps_keys_unique_witness :
  unique_keys
    (db (load_gcp_buckets (H := example_database)
           (example_buckets ++ example_buckets) 100 empty_world).1).
Proof.
  apply (load_gcp_buckets_keeps_keys_unique (H := example_database)
           (example_buckets ++ example_buckets) 100 empty_world).
  repeat split; intros; simpl; lia.
Defined.

(** ** The adapters and the bucket sync as a whole *)


Lemma emits_fetch_transform_load `{Compute, Database} P
    storage project_id gcp_update_tag :
  emits P (fetch_transform_load storage project_id gcp_update_tag).
Proof.
  unfold fetch_transform_load.
  apply emits_bind; [apply emits_get_gcp_buckets|]. intros res.
  apply emits_bind; [apply emits_lift|]. intros records.
  apply emits_load_gcp_buckets.
Qed.

(** X13. [sync_gcp_buckets] runs the cleanup job only after the fetch,
    the transformation and the load have all returned.  When one of them
    raises, the sync raises the same exception at once: the cleanup job is
    not called and the graph is left as the failed step left it.
    Otherwise the cleanup job is the one call the sync makes, and the sync
    ends the way the job ends. *)
Theorem sync_gcp_buckets_cleanup_only_after_load
    `{Compute, Database, Collaborators}
    (storage : storage_resource) (project_id : string) (gcp_update_tag : Z)
    (common_job_parameters : gmap string pyval) (w : world) :
  let before := fetch_transform_load storage project_id gcp_update_tag w in
  let job :=
    run_cleanup_job "gcp_storage_bucket_cleanup.json" common_job_parameters in
  let run :=
    sync_gcp_buckets storage project_id gcp_update_tag common_job_parameters
      w in
  (∀ c, Called c ∈ log before.1 → Called c ∈ log w)
  ∧ match before.2 with
    | Raise e => run = (before.1, Raise e)
    | Ok _ =>
        run = invoke job before.1
        ∧ log run.1 = log before.1 ++ [Called job]
        ∧ run.2 = (perform job (db before.1, sync_state before.1)).2
    end.
Proof.
  intros before job run. split.
  - intros c Hc.
    destruct (emits_new_calls (λ _, False)
                (fetch_transform_load storage project_id gcp_update_tag)
                w c) as [?|[]]; [|done..].
    apply emits_fetch_transform_load.
  - unfold run. rewrite sync_gcp_buckets_split. fold before.
    unfold mbind, M_bind. fold before.
    destruct before as [w1 [[]|e]]; cbn [fst snd]; [|done].
    unfold cleanup_gcp_buckets. fold job. rewrite invoke_run.
    by repeat split.
Qed.

(** X14. With credentials present, [start_okta_ingestion] starts from a
    fresh [OktaSyncState]: whatever sync state an earlier run left behind
    has no influence on the run. *)
Theorem start_okta_ingestion_fresh_state `{Collaborators}
    (config : config) (w : world) (stale : pyval) :
  truthy (okta_api_key config) = true →
  start_okta_ingestion config (World (db w) stale (ticks w) (log w))
  = start_okta_ingestion config w.
Proof.
  intros T. rewrite !(start_okta_ingestion_prologue _ _ T).
  unfold okta_prologue, mbind, M_bind, logger, new_sync_state.
  cbn [db sync_state ticks log]. reflexivity.
Qed.

Lemma start_okta_ingestion_fresh_state_witness :
  start_okta_ingestion (H := idle_collaborators) okta_config
    (World (db empty_world) (VStr "stale") (ticks empty_world)
       (log empty_world))
  = start_okta_ingestion (H := idle_collaborators) okta_config empty_world.
Proof.
  apply (start_okta_ingestion_fresh_state (H := idle_collaborators)
           okta_config empty_world (VStr "stale")).
  vm_compute. reflexivity.
Defined.

Section OktaOrder.
Context `{Collaborators}.

Lemma invoke_all_calls cs w :
  ∃ n, log (invoke_all cs w).1 = log w ++ (Called <$> take n cs)
       ∧ ((invoke_all cs w).2 = Ok tt → n = length cs)
       ∧ n ≤ length cs.
Proof.
  revert w. induction cs as [|c cs IH]; intros w.
  - exists 0. simpl. by rewrite app_nil_r.
  - simpl. unfold mbind, M_bind. rewrite invoke_run.
    destruct ((perform c (db w, sync_state w)).2) as [[]|e].
    + destruct (IH (after_call c (perform c (db w, sync_state w)).1 w))
        as (n & Hlog & Hok & Hle).
      exists (S n). rewrite Hlog. unfold after_call. cbn [log take fmap].
      rewrite <- app_assoc. split; [done|]. split; [|lia].
      intros E. by rewrite Hok.
    + exists 1. unfold after_call. cbn [fst snd log]. simpl.
      split; [done|]. split; [done|]. lia.
Qed.
End OktaOrder.

Lemma calls_of_app evs1 evs2 :
  calls_of (evs1 ++ evs2) = calls_of evs1 ++ calls_of evs2.
Proof. apply omap_app. Qed.

Lemma calls_of_Called cs : calls_of (Called <$> cs) = cs.
Proof.
  unfold calls_of. induction cs as [|c cs IH]; [done|]. simpl. by f_equal.
Qed.

(** X15. With credentials present, [start_okta_ingestion] calls its
    stages in the order of the source, none skipped and none repeated,
    followed by the roles stage and the cleanup job: the calls of a run
    are an initial segment of that list, the whole list when the run
    returns, and the cleanup job is called only after every stage has
    been called. *)
Theorem start_okta_ingestion_call_order `{Collaborators}
    (config : config) (w : world) :
  truthy (okta_api_key config) = true →
  let run := start_okta_ingestion config w in
  ∃ evs n,
    log run.1 = log w ++ evs
    ∧ calls_of evs = take n (okta_calls config)
    ∧ (run.2 = Ok tt → calls_of evs = okta_calls config)
    ∧ (run_cleanup_job "okta_import_cleanup.json"
         (okta_job_parameters config) ∈ calls_of evs →
       calls_of evs = okta_calls config).
Proof.
  intros T run. subst run.
  destruct (start_okta_ingestion config w) as [wf rf] eqn:Erun.
  cbn [fst snd]. rewrite (start_okta_ingestion_prologue _ _ T) in Erun.
  unfold okta_prologue, mbind, M_bind in Erun.
  unfold logger at 1 in Erun. unfold new_sync_state at 1 in Erun.
  cbn [db sync_state ticks log] in Erun.
  set (w0 := World (db w) OktaSyncState (ticks w) _) in Erun.
  destruct (invoke_all_calls (stages_before_roles config) w0)
    as (n & Hlog & Hok & Hle).
  destruct (invoke_all (stages_before_roles config) w0) as [w1 [[]|e]];
    cbn [fst snd] in *.
  - specialize (Hok eq_refl). subst n. rewrite firstn_all in Hlog.
    unfold try_except, _cleanup_okta_organizations in Erun.
    rewrite invoke_run in Erun.
    set (roles := sync_roles _ _ _) in Erun.
    set (job := run_cleanup_job _ _) in *.
    set (w2 := after_call roles _ w1) in Erun.
    set (start := Logged DEBUG "Starting Okta sync on {config.okta_org_id}").
    assert (Hlog2 : log w2 = log w ++ start
                      :: (Called <$> stages_before_roles config)
                      ++ [Called roles]).
    { unfold w2, after_call. cbn [log]. rewrite Hlog. unfold w0.
      cbn [log]. by rewrite <- !app_assoc. }
    assert (Hcalls : ∀ warnings, calls_of warnings = [] →
              calls_of (start :: ((Called <$> stages_before_roles config)
                                  ++ [Called roles]) ++ warnings
                          ++ [Called job])
              = okta_calls config).
    { intros warnings Hw.
      change (calls_of (start :: ?l)) with (calls_of l).
      rewrite !calls_of_app, Hw, calls_of_Called. unfold okta_calls.
      by rewrite <- app_assoc. }
    assert (Hstop : calls_of (start
                              :: (Called <$> stages_before_roles config)
                              ++ [Called roles])
                    = take 8 (okta_calls config)) by reflexivity.
    assert (Hdone : ∀ warnings wf',
              calls_of warnings = [] →
              log wf' = (log w2 ++ warnings) ++ [Called job] →
              ∃ evs n,
                log wf' = log w ++ evs
                ∧ calls_of evs = take n (okta_calls config)
                ∧ (rf = Ok tt → calls_of evs = okta_calls config)
                ∧ (job ∈ calls_of evs → calls_of evs = okta_calls config)).
    { intros warnings wf' Hw ->. rewrite Hlog2.
      exists (start :: ((Called <$> stages_before_roles config)
                        ++ [Called roles]) ++ warnings ++ [Called job]), 9.
      split; [by rewrite <- !app_assoc|].
      rewrite (Hcalls warnings Hw). by repeat split. }
    destruct ((perform roles (db w1, sync_state w1)).2) as [[]|e] eqn:Er.
    + rewrite invoke_run in Erun. apply (f_equal fst) in Erun.
      cbn [fst] in Erun. subst wf.
      apply (Hdone []); [done|]. unfold after_call. cbn [log].
      by rewrite app_nil_r.
    + destruct e as [| | | |code| |].
      5: { unfold logger at 1 in Erun. cbn [db sync_state ticks log] in Erun.
           case_decide.
           - unfold logger at 1 in Erun.
             cbn [db sync_state ticks log] in Erun.
             rewrite invoke_run in Erun. apply (f_equal fst) in Erun.
             cbn [fst] in Erun. subst wf.
             eapply (Hdone [Logged WARNING _; Logged WARNING _]); [reflexivity|]. unfold after_call. cbn [log].
             by rewrite <- !app_assoc.
           - unfold mret, M_ret in Erun.
             rewrite invoke_run in Erun. apply (f_equal fst) in Erun.
             cbn [fst] in Erun. subst wf.
             eapply (Hdone [Logged WARNING _]); [reflexivity|]. unfold after_call. cbn [log].
             done. }
      all: apply (f_equal fst) in Erun as Ew; apply (f_equal snd) in Erun;
        cbn [fst snd] in Ew, Erun; subst wf rf;
        rewrite Hlog2; eexists _, 8; (split; [reflexivity|]);
        (split; [exact Hstop|]); (split; [done|]);
        rewrite Hstop; intros Hin; exfalso;
        rewrite list_elem_of_In in Hin; simpl in Hin;
        intuition discriminate.
  - apply (f_equal fst) in Erun as Ew. apply (f_equal snd) in Erun.
    cbn [fst snd] in Ew, Erun. subst wf rf.
    rewrite Hlog. unfold w0. cbn [log]. rewrite <- app_assoc.
    eexists _, n. split; [reflexivity|].
    cbn [app]. change (calls_of (Logged DEBUG ?m :: ?l)) with (calls_of l).
    rewrite calls_of_Called.
    assert (Htake : take n (stages_before_roles config)
                    = take n (okta_calls config)).
    { unfold okta_calls. by rewrite take_app_le. }
    split; [done|]. split; [done|].
    intros Hin. exfalso. apply elem_of_take in Hin as (i & Hi & _).
    unfold stages_before_roles in Hi.
    do 7 (destruct i as [|i]; [discriminate Hi|]). by destruct i.
Qed.

Lemma start_okta_ingestion_call_order_witness :
  ∃ evs n,
    log (start_okta_ingestion (H := roles_failing "E0000006") okta_config
           empty_world).1 = log empty_world ++ evs
    ∧ calls_of evs = take n (okta_calls okta_config).
Proof.
  destruct (start_okta_ingestion_call_order (H := roles_failing "E0000006")
              okta_config empty_world) as (evs & n & H1 & H2 & _).
  - vm_compute. reflexivity.
  - exists evs, n. split; [exact H1 | exact H2].
Defined.

(** ** Examples of the properties above on concrete runs *)

Lemma transform_gcp_buckets_returns_iff_witness :
  is_ok (transform_gcp_buckets example_response) = true.
Proof.
  apply (proj2 (transform_gcp_buckets_returns_iff example_response)).
  eexists. split; [vm_compute; reflexivity|]. repeat constructor.
Defined.

Lemma load_gcp_buckets_frame_witness :
  ticks (load_gcp_buckets (H := example_database) example_buckets 100
           empty_world).1
  = ticks empty_world + length example_buckets.
Proof.
  destruct (load_gcp_buckets_frame (H := example_database) example_buckets
              100 empty_world) as (_ & _ & _ & Hok & _).
  apply Hok. vm_compute. reflexivity.
Defined.

Lemma load_gcp_buckets_created_witness :
  ∃ n j,
    nodes (db (load_gcp_buckets (H := example_database) example_buckets 100
                 empty_world).1) !! 0 = Some n
    ∧ props n !! "firstseen" = Some (VInt (1000 + Z.of_nat j)).
Proof.
  destruct (load_gcp_buckets_created (H := example_database) example_buckets
              100 empty_world) as [Hn _].
  assert (Hlen : 0 < length (nodes (db (load_gcp_buckets
                                         (H := example_database)
                                         example_buckets 100
                                         empty_world).1)))
    by (vm_compute; lia).
  destruct (lookup_lt_is_Some_2 _ _ Hlen) as (n & Hlook).
  destruct (Hn 0 n Hlook) as (j & r & _ & _ & Hf & _).
  - simpl. lia.
  - exists n, j. split; [exact Hlook | exact Hf].
Defined.

Lemma sync_gcp_buckets_cleanup_only_after_load_witness :
  @sync_gcp_buckets reason_of_content example_database idle_collaborators
    (failing_storage "backendError") "project" 100 ∅ empty_world
  = (empty_world, Raise (HttpError (MkHttpError "backendError"))).
Proof.
  destruct (@sync_gcp_buckets_cleanup_only_after_load reason_of_content
              example_database idle_collaborators
              (failing_storage "backendError") "project" 100 ∅ empty_world)
    as [_ Hm].
  assert (E : @fetch_transform_load reason_of_content example_database
                (failing_storage "backendError") "project" 100 empty_world
              = (empty_world, Raise (HttpError (MkHttpError "backendError"))))
    by (vm_compute; reflexivity).
  rewrite E in Hm. exact Hm.
Defined.
